(** * The qhull wrapper of matplotlib: Delaunay triangulation glue code

    A shallow embedding of [_qhull_wrapper.cpp]: the input validator
    [at_least_3_unique_points], the translator [delaunay_impl] with its
    scoped guard [QhullInfo], and the entry point [delaunay].

    Conventions of the embedding.
    - A C [double] is an IEEE 754 binary64 value, [spec_float] at precision
      53 and maximal exponent 1024; [!=] is the negation of the IEEE
      equality, so a NaN differs from everything, itself included.
    - A C array is a list; a read or write outside it, the use of an
      indeterminate value and a dangling pointer are undefined behaviour,
      written [None] (in pure code) or [Undef] (in effectful code).
    - The counters [i], [ntri] and the array lengths are mathematical
      numbers: the embedding assumes they fit the C types that hold them.
    - The hull engine (libqhull_r) is an interface; its result is read
      through a heap of facet records addressed by pointers. *)

From Stdlib Require Import ZArith Lia Floats.SpecFloat.
From stdpp Require Import base option list strings pretty.

(** ** Doubles *)

Module Double.

Definition prec : Z := 53.
Definition emax : Z := 1024.

Definition double : Type := spec_float.

Definition zero : double := S754_zero false.
Definition nan : double := S754_nan.

Definition add : double → double → double := SFadd prec emax.
Definition sub : double → double → double := SFsub prec emax.
Definition div : double → double → double := SFdiv prec emax.

(** Conversion of an integer, as in [x_mean /= npoints]. *)
Definition of_Z (n : Z) : double := binary_normalize prec emax n 0 false.

(** [a == b] and [a != b] of C. *)
Definition eqb (a b : double) : bool := SFeqb a b.
Definition neb (a b : double) : bool := negb (SFeqb a b).

Definition is_nan (a : double) : bool :=
  match a with S754_nan => true | _ => false end.

(** The doubles that [==] identifies: the two zeros, an infinity with
    itself, a finite number with itself; a NaN with nothing. *)
Definition same (a b : double) : Prop :=
  match a, b with
  | S754_zero _, S754_zero _ => True
  | S754_infinity s1, S754_infinity s2 => s1 = s2
  | S754_finite s1 m1 e1, S754_finite s2 m2 e2 =>
      s1 = s2 ∧ m1 = m2 ∧ e1 = e2
  | _, _ => False
  end.

End Double.

Abbreviation double := Double.double.

(** ** The input validator *)

(** A point of the pair of coordinate arrays: [(x[i], y[i])]. *)
Definition point_at (x y : list double) (i : nat) : option (double * double) :=
  xi ← x !! i; yi ← y !! i; Some (xi, yi).

(** [x[i] != x[j] || y[i] != y[j]] *)
Definition differ (p q : double * double) : bool :=
  Double.neb p.1 q.1 || Double.neb p.2 q.2.

(** First unique point has index 0. *)
Definition unique1 : nat := 0.

(** The loop [for (i = 1; i < npoints; ++i)] of [at_least_3_unique_points];
    [fuel] is the number of iterations left, [npoints - i]. *)
Fixpoint unique_scan (x y : list double) (fuel i unique2 : nat) : option bool :=
  match fuel with
  | O => Some false
  | S fuel =>
      p ← point_at x y i;
      p1 ← point_at x y unique1;
      if decide (unique2 = 0) then
        if differ p p1
        then unique_scan x y fuel (S i) i
        else unique_scan x y fuel (S i) unique2
      else
        p2 ← point_at x y unique2;
        if differ p p1 && differ p p2
        then Some true
        else unique_scan x y fuel (S i) unique2
  end.

Definition at_least_3_unique_points (npoints : nat) (x y : list double)
  : option bool :=
  if decide (npoints < 3) then Some false
  else unique_scan x y (npoints - 1) 1 0.

(** What the validator decides: three positions of the point set whose
    points differ pairwise. *)
Definition three_unique (x y : list double) : Prop :=
  ∃ i j k p q r,
    i < j ∧ j < k ∧
    point_at x y i = Some p ∧ point_at x y j = Some q ∧ point_at x y k = Some r ∧
    differ p q = true ∧ differ p r = true ∧ differ q r = true.

Definition has_nan (p : double * double) : bool :=
  Double.is_nan p.1 || Double.is_nan p.2.

(** ** The hull engine, as the wrapper reads it *)

(** Facets are engine-owned records addressed by pointers; a facet's
    neighbours are pointers to facets. *)
Abbreviation facet_ptr := nat (only parsing).
Abbreviation pointT := nat (only parsing).

Record vertexT := { point : pointT }.

Record facetT := {
  id : nat;
  upperdelaunay : bool;
  toporient : bool;
  vertices : list vertexT;
  neighbors : list facet_ptr }.

(** The part of [qhT] the wrapper reads: the facet records, the facets in
    the order [FORALLfacets] visits them, and the next unused facet id. *)
Record qhT := {
  facet_heap : list facetT;
  facet_list : list facet_ptr;
  facet_id : nat }.

(** The functions of libqhull_r the wrapper calls.  [qh_new_qhull] returns
    the exit code, the new engine state and the diagnostic text it prints
    to its error stream. *)
Class Qhull := {
  qh_zero : qhT → qhT;
  qh_new_qhull :
    qhT → nat → nat → list double → bool → string → Z * qhT * string;
  qh_triangulate : qhT → qhT;
  qh_pointid : qhT → pointT → Z;
  qh_freeqhull : qhT → bool → qhT;
  qh_memfreeshort : qhT → Z * Z }.

Definition qh_ERRnone : Z := 0.
Definition qh_ALL : bool := true.

Definition qhull_error_msg : list string :=
  [ "";                     (* 0 = qh_ERRnone *)
    "input inconsistency";  (* 1 = qh_ERRinput *)
    "singular input data";  (* 2 = qh_ERRsingular *)
    "precision error";      (* 3 = qh_ERRprec *)
    "insufficient memory";  (* 4 = qh_ERRmem *)
    "internal error" ].     (* 5 = qh_ERRqhull *)

(** [qhull_error_msg[exitcode]]: outside the table the read is undefined. *)
Definition qhull_error_msg_at (exitcode : Z) : option string :=
  if decide (0 ≤ exitcode)%Z then qhull_error_msg !! Z.to_nat exitcode
  else None.

(** ** Memory cells and arrays *)

(** A cell of an [int] array that was allocated but not initialised holds
    no value until it is written. *)
Abbreviation buffer := (list (option Z)).

Definition uninitialised (n : nat) : buffer := replicate n None.

(** [b[i] = v] *)
Definition store (b : buffer) (i : nat) (v : Z) : option buffer :=
  if decide (i < length b) then Some (<[i := Some v]> b) else None.

(** [b[i]] as a value *)
Definition load (b : buffer) (i : nat) : option Z := mjoin (b !! i).

(** [v[i] = a] on a [std::vector]. *)
Definition vstore {A} (v : list A) (i : nat) (a : A) : option (list A) :=
  if decide (i < length v) then Some (<[i := a]> v) else None.

(** [*indices++ = v] for each [v] in turn, from position [p]. *)
Fixpoint write_all (vals : list Z) (indices : buffer) (p : nat)
  : option buffer :=
  match vals with
  | [] => Some indices
  | v :: vals => indices ← store indices p v; write_all vals indices (S p)
  end.

(** ** Facet accessors *)

Section Translator.
Context `{Qhull}.

(** Return the indices of the 3 vertices that comprise the specified
    facet (i.e. triangle). *)
Definition get_facet_vertices (qh : qhT) (facet : facetT) (indices : buffer)
  : option buffer :=
  write_all ((λ vertex, qh_pointid qh (point vertex)) <$> vertices facet)
            indices 0.

(** [neighbor->upperdelaunay ? -1 : tri_indices[neighbor->id]] *)
Definition neighbour_index (qh : qhT) (tri_indices : list Z)
    (neighborp : facet_ptr) : option Z :=
  neighbor ← facet_heap qh !! neighborp;
  if upperdelaunay neighbor then Some (-1)%Z
  else tri_indices !! id neighbor.

(** Return the indices of the 3 triangles that are neighbors of the
    specified facet (triangle). *)
Definition get_facet_neighbours (qh : qhT) (facet : facetT)
    (tri_indices : list Z) (indices : buffer) : option buffer :=
  vals ← mapM (neighbour_index qh tri_indices) (neighbors facet);
  write_all vals indices 0.

(** *** The three passes over the facet list *)

(** Determine ntri. *)
Fixpoint count_triangles (qh : qhT) (facets : list facet_ptr) (ntri : nat)
  : option nat :=
  match facets with
  | [] => Some ntri
  | p :: facets =>
      facet ← facet_heap qh !! p;
      count_triangles qh facets
        (if upperdelaunay facet then ntri else S ntri)
  end.

(** Determine triangles array and set tri_indices array. *)
Fixpoint emit_triangles (qh : qhT) (facets : list facet_ptr) (i : nat)
    (tri_indices : list Z) (triangles : buffer) (triangles_ptr : nat)
  : option (list Z * buffer) :=
  match facets with
  | [] => Some (tri_indices, triangles)
  | p :: facets =>
      facet ← facet_heap qh !! p;
      if negb (upperdelaunay facet) then
        tri_indices ← vstore tri_indices (id facet) (Z.of_nat i);
        indices ← get_facet_vertices qh facet (uninitialised 3);
        i0 ← load indices 0; i1 ← load indices 1; i2 ← load indices 2;
        triangles ← store triangles triangles_ptr
                      (if toporient facet then i0 else i2);
        triangles ← store triangles (triangles_ptr + 1) i1;
        triangles ← store triangles (triangles_ptr + 2)
                      (if toporient facet then i2 else i0);
        emit_triangles qh facets (S i) tri_indices triangles
                       (triangles_ptr + 3)
      else
        tri_indices ← vstore tri_indices (id facet) (-1)%Z;
        emit_triangles qh facets i tri_indices triangles triangles_ptr
  end.

(** Determine neighbors array. *)
Fixpoint emit_neighbors (qh : qhT) (facets : list facet_ptr)
    (tri_indices : list Z) (neighbors_buf : buffer) (neighbors_ptr : nat)
  : option buffer :=
  match facets with
  | [] => Some neighbors_buf
  | p :: facets =>
      facet ← facet_heap qh !! p;
      if negb (upperdelaunay facet) then
        indices ← get_facet_neighbours qh facet tri_indices
                    (uninitialised 3);
        i0 ← load indices 0; i1 ← load indices 1; i2 ← load indices 2;
        neighbors_buf ← store neighbors_buf neighbors_ptr
                          (if toporient facet then i2 else i0);
        neighbors_buf ← store neighbors_buf (neighbors_ptr + 1)
                          (if toporient facet then i0 else i2);
        neighbors_buf ← store neighbors_buf (neighbors_ptr + 2) i1;
        emit_neighbors qh facets tri_indices neighbors_buf
                       (neighbors_ptr + 3)
      else
        emit_neighbors qh facets tri_indices neighbors_buf neighbors_ptr
  end.

End Translator.

(** ** Effects: the host, the trace and the monad of the wrapper *)

Inductive FILE := stderr | devnull.

#[global] Instance FILE_eq_dec : EqDecision FILE.
Proof. solve_decision. Defined.

Inductive pyexc := ValueError | RuntimeError | RuntimeWarning.

Inductive cpp_exception :=
| runtime_error (what : string)
| bad_alloc
| py_exception.

(** What a call does to the world outside, in order. *)
Inductive event :=
| Fopen (path : FILE) (opened : bool)
| Fclose (f : FILE)
| Fwrite (f : FILE) (text : string)
| QhZero
| QhNewQhull
| QhTriangulate
| QhFreeQhull
| QhMemFreeShort
| PyErrSetString (exc : pyexc) (msg : string)
| PyErrFormat (exc : pyexc) (format : string)
    (category : string) (exitcode : Z) (hint : string)
| PyErrWarnEx (category : pyexc) (msg : string).

(** What the host decides: whether the null device opens and whether the
    allocations succeed. *)
Record host := {
  devnull_opens : bool;
  points_allocate : bool;
  tri_indices_allocate : bool;
  triangles_allocate : bool;
  neighbors_allocate : bool;
  tuple_allocates : bool }.

Inductive result (A : Type) :=
| Ret (a : A)
| Throw (e : cpp_exception)
| Undef.
Arguments Ret {A} a.
Arguments Throw {A} e.
Arguments Undef {A}.

(** A computation reads and updates the engine state [qh_qh] of the call
    and appends to the trace. *)
Definition M (A : Type) : Type := qhT → result A * qhT * list event.

#[global] Instance M_ret : MRet M := λ A a qh, (Ret a, qh, []).

#[global] Instance M_bind : MBind M := λ A B f m qh,
  match m qh with
  | (Ret a, qh', t) => let '(r, qh'', t') := f a qh' in (r, qh'', t ++ t')
  | (Throw e, qh', t) => (Throw e, qh', t)
  | (Undef, qh', t) => (Undef, qh', t)
  end.

Definition emit (e : event) : M unit := λ qh, (Ret (), qh, [e]).
Definition throw {A} (e : cpp_exception) : M A := λ qh, (Throw e, qh, []).
Definition undefined {A} : M A := λ qh, (Undef, qh, []).
Definition get_qh : M qhT := λ qh, (Ret qh, qh, []).
Definition put_qh (qh : qhT) : M unit := λ _, (Ret (), qh, []).

(** Pure code whose undefined behaviour is [None]. *)
Definition defined {A} (o : option A) : M A :=
  match o with Some a => mret a | None => undefined end.

(** An object with a destructor: [dtor] runs when the scope [body] is left,
    by a return or by an exception.  After undefined behaviour nothing is
    promised, the destructor included. *)
Definition scoped {A} (dtor : M unit) (body : M A) : M A := λ qh,
  match body qh with
  | (Undef, qh', t) => (Undef, qh', t)
  | (r, qh', t) => let '(_, qh'', t') := dtor qh' in (r, qh'', t ++ t')
  end.

(** ** Python values *)

(** An [int] array of shape [(rows, 3)] and its cells in row-major order. *)
Record ndarray := { rows : nat; data : buffer }.

(** [a[i][c]] *)
Definition entry (a : ndarray) (i c : nat) : option Z :=
  load (data a) (3 * i + c).

(** A [PyObject*] returned by the wrapper: [None] is [NULL], and the tuple
    is [(triangles, neighbors)]. *)
Definition PyObject : Type := option (ndarray * ndarray).

(** Modelled from the spec: [numpy::array_view<int, 2>(dims)] of
    numpy_cpp.h, which allocates an array of shape [dims] and fails with
    an exception when the allocation fails. *)
Definition array_view (allocates : bool) (ntri : nat) : M buffer :=
  if allocates then mret (uninitialised (ntri * 3)) else throw py_exception.

(** [std::vector<T> v(n)]: [n] value-initialised elements. *)
Definition vector {A} (allocates : bool) (n : nat) (a : A) : M (list A) :=
  if allocates then mret (replicate n a) else throw bad_alloc.

(** ** The guard *)

Section Wrapper.
Context `{Qhull}.

(** Holds on to info from Qhull so that it can be destructed
    automatically: the destructor [~QhullInfo]. *)
Definition QhullInfo_dtor (error_file : FILE) : M unit :=
  qh ← get_qh;
  emit QhFreeQhull;;
  put_qh (qh_freeqhull qh (negb qh_ALL));;
  qh ← get_qh;
  let '(curlong, totlong) := qh_memfreeshort qh in
  emit QhMemFreeShort;;
  (if bool_decide (curlong ≠ 0%Z) || bool_decide (totlong ≠ 0%Z)
   then emit (PyErrWarnEx RuntimeWarning
                "Qhull could not free all allocated memory")
   else mret ());;
  (if bool_decide (error_file ≠ stderr)
   then emit (Fclose error_file)
   else mret ()).

(** ** The coordinate conditioner *)

(** Determine mean x, y coordinates: the summation loop. *)
Fixpoint sum_coordinates (x y : list double) (fuel i : nat)
    (x_mean y_mean : double) : option (double * double) :=
  match fuel with
  | O => Some (x_mean, y_mean)
  | S fuel =>
      xi ← x !! i; yi ← y !! i;
      sum_coordinates x y fuel (S i)
        (Double.add x_mean xi) (Double.add y_mean yi)
  end.

(** Prepare points array to pass to qhull. *)
Fixpoint prepare_points (x y : list double) (x_mean y_mean : double)
    (fuel i : nat) (points : list double) : option (list double) :=
  match fuel with
  | O => Some points
  | S fuel =>
      xi ← x !! i; yi ← y !! i;
      points ← vstore points (2 * i) (Double.sub xi x_mean);
      points ← vstore points (2 * i + 1) (Double.sub yi y_mean);
      prepare_points x y x_mean y_mean fuel (S i) points
  end.

Definition ndim : nat := 2.

Definition centred_points (npoints : nat) (x y : list double)
    (points : list double) : option (list double) :=
  '(x_mean, y_mean) ← sum_coordinates x y npoints 0 Double.zero Double.zero;
  let x_mean := Double.div x_mean (Double.of_Z (Z.of_nat npoints)) in
  let y_mean := Double.div y_mean (Double.of_Z (Z.of_nat npoints)) in
  prepare_points x y x_mean y_mean npoints 0 points.

(** ** The translator *)

Definition engine_error_format : string :=
  "Error in qhull Delaunay triangulation calculation: %s (exitcode=%d)%s".

(** The text [PyErr_Format] makes of [engine_error_format]. *)
Definition engine_error_text (category : string) (exitcode : Z)
    (hint : string) : string :=
  "Error in qhull Delaunay triangulation calculation: " +:+ category +:+
  " (exitcode=" +:+ pretty exitcode +:+ ")" +:+ hint.

Definition verbose_hint (hide_qhull_errors : bool) : string :=
  if hide_qhull_errors
  then "; use python verbose option (-v) to see original qhull error."
  else "".

(** qhull expects a FILE* to write errors to: the OS-equivalent of
    /dev/null when the errors are hidden, stderr otherwise. *)
Definition open_error_file (h : host) (hide_qhull_errors : bool) : M FILE :=
  if hide_qhull_errors then
    emit (Fopen devnull (devnull_opens h));;
    if devnull_opens h then mret devnull
    else throw (runtime_error "Could not open devnull")
  else mret stderr.

(** The part of [delaunay_impl] that follows a successful engine run: from
    [qh_triangulate] to the returned tuple. *)
Definition translate_facets (h : host) : M PyObject :=
  (* Split facets so that they only have 3 points each. *)
  qh ← get_qh;
  emit QhTriangulate;;
  put_qh (qh_triangulate qh);;
  qh ← get_qh;
  (* Determine ntri and max_facet_id. *)
  ntri ← defined (count_triangles qh (facet_list qh) 0);
  (* Create array to map facet id to triangle index:
     max_facet_id + 1 = qh->facet_id elements. *)
  tri_indices ← vector (tri_indices_allocate h) (facet_id qh) 0%Z;
  (* Allocate Python arrays to return. *)
  triangles ← array_view (triangles_allocate h) ntri;
  neighbors_buf ← array_view (neighbors_allocate h) ntri;
  '(tri_indices, triangles) ←
    defined (emit_triangles qh (facet_list qh) 0 tri_indices triangles 0);
  neighbors_buf ←
    defined (emit_neighbors qh (facet_list qh) tri_indices neighbors_buf 0);
  if tuple_allocates h then
    mret (Some ({| rows := ntri; data := triangles |},
                {| rows := ntri; data := neighbors_buf |}))
  else throw (runtime_error "Failed to create Python tuple").

(** The engine call of [delaunay_impl] and what follows it, inside the
    scope of the guard. *)
Definition triangulate (h : host) (npoints : nat) (points : list double)
    (error_file : FILE) (hide_qhull_errors : bool) : M PyObject :=
  qh ← get_qh;
  emit QhZero;;
  put_qh (qh_zero qh);;
  qh ← get_qh;
  let '(exitcode, qh', diagnostics) :=
    qh_new_qhull qh ndim npoints points false "qhull d Qt Qbb Qc Qz" in
  emit QhNewQhull;;
  emit (Fwrite error_file diagnostics);;
  put_qh qh';;
  if bool_decide (exitcode ≠ qh_ERRnone) then
    category ← defined (qhull_error_msg_at exitcode);
    emit (PyErrFormat RuntimeError engine_error_format
            category exitcode (verbose_hint hide_qhull_errors));;
    mret None
  else translate_facets h.

(** Delaunay implementation method.  If [hide_qhull_errors] is true then
    qhull error messages are discarded; if it is false then they are
    written to stderr.  (QHULL_LIB_CHECK, the version check of the
    library, is left out.) *)
Definition delaunay_impl (h : host) (npoints : nat) (x y : list double)
    (hide_qhull_errors : bool) : M PyObject :=
  (* Allocate points. *)
  points ← vector (points_allocate h) (npoints * ndim) Double.zero;
  (* Determine mean x, y coordinates; prepare points array. *)
  points ← defined (centred_points npoints x y points);
  error_file ← open_error_file h hide_qhull_errors;
  (* Perform Delaunay triangulation. *)
  scoped (QhullInfo_dtor error_file)
         (triangulate h npoints points error_file hide_qhull_errors).

(** Process Python arguments and call Delaunay implementation method.
    The arguments arrive parsed; an exception of [delaunay_impl] is left
    as it is thrown (the macro CALL_CPP, not part of this file, turns it
    into a Python error). *)
Definition delaunay (h : host) (xarray yarray : list double) (verbose : Z)
  : M PyObject :=
  let npoints := length xarray in
  if bool_decide (npoints ≠ length yarray) then
    emit (PyErrSetString ValueError
            "x and y must be 1D arrays of the same length");;
    mret None
  else if bool_decide (npoints < 3) then
    emit (PyErrSetString ValueError
            "x and y arrays must have a length of at least 3");;
    mret None
  else
    unique ← defined (at_least_3_unique_points npoints xarray yarray);
    if negb unique then
      emit (PyErrSetString ValueError
              "x and y arrays must consist of at least 3 unique points");;
      mret None
    else delaunay_impl h npoints xarray yarray (bool_decide (verbose = 0%Z)).

End Wrapper.

(** * Vocabulary of the properties *)

(** Two points that [differ] does not tell apart. *)
Definition alike (p q : double * double) : Prop := differ p q = false.

(** The invariant of the validator's scan: every point seen so far is the
    first point or alike it, or is the second unique point or alike it. *)
Definition two_classes (x y : list double) (i unique2 : nat) : Prop :=
  ∃ p0 p2, point_at x y 0 = Some p0 ∧ point_at x y unique2 = Some p2 ∧
    ∀ m pm, m < i → point_at x y m = Some pm →
      (m = 0 ∨ alike pm p0) ∨ (m = unique2 ∨ alike pm p2).

(** The facets behind a list of pointers, and those of them that are kept:
    the facets with [upperdelaunay] false, in the order of the list. *)
Definition facets_of (qh : qhT) (ps : list facet_ptr) : list facetT :=
  omap (λ p, facet_heap qh !! p) ps.

Definition retained_of (qh : qhT) (ps : list facet_ptr) : list facetT :=
  filter (λ f, upperdelaunay f = false) (facets_of qh ps).

Definition retained (qh : qhT) : list facetT := retained_of qh (facet_list qh).

(** The input-point indices of a facet's vertices, in the engine's order. *)
Definition native_vertices `{Qhull} (qh : qhT) (f : facetT) : list Z :=
  (λ vertex, qh_pointid qh (point vertex)) <$> vertices f.

(** The engine's slot that each output column is read from. *)
Definition vertex_slot (toporient : bool) (c : nat) : nat :=
  match c with
  | 0 => if toporient then 0 else 2
  | 1 => 1
  | _ => if toporient then 2 else 0
  end.

Definition neighbor_slot (toporient : bool) (c : nat) : nat :=
  match c with
  | 0 => if toporient then 2 else 0
  | 1 => if toporient then 0 else 2
  | _ => 1
  end.

(** The triangle indices of a facet's neighbours, in the engine's order. *)
Definition native_neighbours `{Qhull} (qh : qhT) (tri_indices : list Z)
    (f : facetT) : option (list Z) :=
  mapM (neighbour_index qh tri_indices) (neighbors f).

(** What the engine is asked and answers in a call: the exit code, the
    engine state and the diagnostic text of [qh_new_qhull] on the centred
    points. *)
Definition engine_run `{Qhull} (npoints : nat) (x y : list double)
    (qh0 : qhT) : option (Z * qhT * string) :=
  points ← centred_points npoints x y (replicate (npoints * ndim) Double.zero);
  Some (qh_new_qhull (qh_zero qh0) ndim npoints points false
          "qhull d Qt Qbb Qc Qz").

(** The call gets as far as the engine: the points array is allocated and
    the error stream is there. *)
Definition reaches_engine (h : host) (hide_qhull_errors : bool) : Prop :=
  points_allocate h = true ∧
  (hide_qhull_errors = true → devnull_opens h = true).

(** The events of the guard's destructor, on the engine state [qh] it
    finds. *)
Definition cleanup_events `{Qhull} (error_file : FILE) (qh : qhT)
  : list event :=
  let '(curlong, totlong) := qh_memfreeshort (qh_freeqhull qh (negb qh_ALL)) in
  [QhFreeQhull; QhMemFreeShort] ++
  (if bool_decide (curlong ≠ 0%Z) || bool_decide (totlong ≠ 0%Z)
   then [PyErrWarnEx RuntimeWarning "Qhull could not free all allocated memory"]
   else []) ++
  (if bool_decide (error_file ≠ stderr) then [Fclose error_file] else []).

(** The outcome of the three passes on the triangulated engine state. *)
Definition translate_result `{Qhull} (h : host) (qh : qhT) : result PyObject :=
  match count_triangles qh (facet_list qh) 0 with
  | None => Undef
  | Some ntri =>
      if negb (tri_indices_allocate h) then Throw bad_alloc
      else if negb (triangles_allocate h) then Throw py_exception
      else if negb (neighbors_allocate h) then Throw py_exception
      else
        match emit_triangles qh (facet_list qh) 0
                (replicate (facet_id qh) 0%Z) (uninitialised (ntri * 3)) 0 with
        | None => Undef
        | Some (tri_indices, triangles) =>
            match emit_neighbors qh (facet_list qh) tri_indices
                    (uninitialised (ntri * 3)) 0 with
            | None => Undef
            | Some neighbors_buf =>
                if tuple_allocates h then
                  Ret (Some ({| rows := ntri; data := triangles |},
                             {| rows := ntri; data := neighbors_buf |}))
                else Throw (runtime_error "Failed to create Python tuple")
            end
        end
  end.

(** The outcome of the engine call and of what follows it, given the
    answer of [qh_new_qhull]. *)
Definition triangulate_outcome `{Qhull} (h : host) (error_file : FILE)
    (hide_qhull_errors : bool) (answer : Z * qhT * string)
  : result PyObject * qhT * list event :=
  let '(exitcode, qh1, diagnostics) := answer in
  let called := [QhZero; QhNewQhull; Fwrite error_file diagnostics] in
  if bool_decide (exitcode ≠ qh_ERRnone) then
    match qhull_error_msg_at exitcode with
    | Some category =>
        (Ret None, qh1,
         called ++ [PyErrFormat RuntimeError engine_error_format category
                      exitcode (verbose_hint hide_qhull_errors)])
    | None => (Undef, qh1, called)
    end
  else
    (translate_result h (qh_triangulate qh1), qh_triangulate qh1,
     called ++ [QhTriangulate]).

(** The guard around an outcome: the cleanup follows unless the behaviour
    is undefined. *)
Definition guarded `{Qhull} {A} (error_file : FILE)
    (out : result A * qhT * list event) : result A * qhT * list event :=
  let '(r, qh, t) := out in
  match r with
  | Undef => (Undef, qh, t)
  | _ => (r, qh_freeqhull qh (negb qh_ALL), t ++ cleanup_events error_file qh)
  end.

(** The reordering of the neighbours as the specification words it: the
    reordering of the vertices, then columns 0 and 2 swapped. *)
Definition reorder_vertices (toporient : bool) (s : Z * Z * Z) : Z * Z * Z :=
  let '(s0, s1, s2) := s in if toporient then (s0, s1, s2) else (s2, s1, s0).

Definition swap_0_2 (r : Z * Z * Z) : Z * Z * Z :=
  let '(r0, r1, r2) := r in (r2, r1, r0).

Definition reorder_neighbors_as_specified (toporient : bool) (n : Z * Z * Z)
  : Z * Z * Z :=
  swap_0_2 (reorder_vertices toporient n).

(** The three entries of row [i]. *)
Definition row (a : ndarray) (i : nat) : option Z * option Z * option Z :=
  (entry a i 0, entry a i 1, entry a i 2).

(** The vertices of triangle [i], when all are there. *)
Definition triangle_vertices (tri : ndarray) (i : nat) : list Z :=
  omap (entry tri i) [0; 1; 2].

(** An engine state the passes can read: every facet of the list is a
    record with an id below [facet_id]; a retained facet has three vertices
    and three neighbours, each neighbour a record that, when it is not an
    upper facet, has an id below [facet_id]. *)
Definition simplicial (qh : qhT) (f : facetT) : Prop :=
  length (vertices f) = 3 ∧ length (neighbors f) = 3 ∧
  ∀ p, p ∈ neighbors f →
    ∃ g, facet_heap qh !! p = Some g ∧
         (upperdelaunay g = false → id g < facet_id qh).

Definition well_formed (qh : qhT) : Prop :=
  ∀ p, p ∈ facet_list qh →
    ∃ f, facet_heap qh !! p = Some f ∧ id f < facet_id qh ∧
         (upperdelaunay f = false → simplicial qh f).

Definition allocates_all (h : host) : Prop :=
  tri_indices_allocate h = true ∧ triangles_allocate h = true ∧
  neighbors_allocate h = true ∧ tuple_allocates h = true.

(** How a failed call is classified: by the reason of an invalid input, by
    the category and the exit code of an engine error, or by the exception
    that leaves the call. *)
Inductive failure :=
| InvalidInput (reason : string)
| EngineError (category : string) (exitcode : Z)
| CppException (e : cpp_exception).

Definition classify (e : event) : option failure :=
  match e with
  | PyErrSetString ValueError reason => Some (InvalidInput reason)
  | PyErrFormat RuntimeError _ category exitcode _ =>
      Some (EngineError category exitcode)
  | _ => None
  end.

Definition classification {A} (out : result A * qhT * list event)
  : list failure :=
  omap classify out.2 ++
  match out.1.1 with Throw e => [CppException e] | _ => [] end.

(** The text written to a stream. *)
Definition written_to (f : FILE) (t : list event) : list string :=
  omap (λ e, match e with
             | Fwrite f' text => if decide (f' = f) then Some text else None
             | _ => None
             end) t.


(** The state of the engine's memory along a trace: allocated by the engine
    calls, its long memory freed by [qh_freeqhull], then its short memory
    by [qh_memfreeshort]. *)
Inductive engine_memory := Untouched | Allocated | LongFreed | Released.

Definition memory_step (s : engine_memory) (e : event) : engine_memory :=
  match e with
  | QhZero | QhNewQhull | QhTriangulate => Allocated
  | QhFreeQhull => match s with Allocated => LongFreed | _ => s end
  | QhMemFreeShort => match s with LongFreed => Released | _ => s end
  | _ => s
  end.

Definition memory_after (t : list event) : engine_memory :=
  foldl memory_step Untouched t.

(** The streams a trace leaves open. *)
Definition file_step (fs : list FILE) (e : event) : list FILE :=
  match e with
  | Fopen f true => f :: fs
  | Fclose f => filter (λ f', f' ≠ f) fs
  | _ => fs
  end.

Definition open_files (t : list event) : list FILE := foldl file_step [] t.

Definition residual_warning : event :=
  PyErrWarnEx RuntimeWarning "Qhull could not free all allocated memory".

(** The same engine, but whose cleanup leaves no memory behind. *)
Definition without_residual (E : Qhull) : Qhull :=
  {| qh_zero := @qh_zero E;
     qh_new_qhull := @qh_new_qhull E;
     qh_triangulate := @qh_triangulate E;
     qh_pointid := @qh_pointid E;
     qh_freeqhull := @qh_freeqhull E;
     qh_memfreeshort := λ _, (0, 0)%Z |}.

(** The cleanup found memory that it could not free. *)
Definition residual `{Qhull} (qh : qhT) : Prop :=
  (qh_memfreeshort qh).1 ≠ 0%Z ∨ (qh_memfreeshort qh).2 ≠ 0%Z.

(** The three messages of an invalid input. *)
Definition mismatched_lengths : string :=
  "x and y must be 1D arrays of the same length".
Definition too_few_points : string :=
  "x and y arrays must have a length of at least 3".
Definition not_enough_unique_points : string :=
  "x and y arrays must consist of at least 3 unique points".

(** The outcome of a call that the validation rejects: NULL, the engine
    state untouched, and the ValueError as the only event. *)
Definition rejected (qh0 : qhT) (reason : string)
  : result PyObject * qhT * list event :=
  (Ret None, qh0, [PyErrSetString ValueError reason]).


(** The centred coordinates handed to the engine. *)
Definition conditioned (x y : list double) : option (list double) :=
  centred_points (length x) x y (replicate (length x * ndim) Double.zero).

(** Doubles of equal value: those that [==] identifies, and any two NaNs. *)
Definition equal_value (a b : double) : Prop :=
  Double.same a b ∨ (Double.is_nan a = true ∧ Double.is_nan b = true).

(** Three positions, in any order, whose points differ pairwise. *)
Definition three_unique_unordered (x y : list double) : Prop :=
  ∃ i j k p q r,
    i ≠ j ∧ i ≠ k ∧ j ≠ k ∧
    point_at x y i = Some p ∧ point_at x y j = Some q ∧ point_at x y k = Some r ∧
    differ p q = true ∧ differ p r = true ∧ differ q r = true.

(** The mean of the conditioner: the sum from the left, starting at 0,
    divided by the number of elements. *)
Definition mean (x : list double) : double :=
  Double.div (foldl Double.add Double.zero x)
             (Double.of_Z (Z.of_nat (length x))).


(** Every neighbour of a retained facet is a facet of the list. *)
Definition neighbours_listed (qh : qhT) : Prop :=
  ∀ f q g, f ∈ retained qh → q ∈ neighbors f →
    facet_heap qh !! q = Some g → g ∈ facets_of qh (facet_list qh).

(** The facets of the list have distinct ids. *)
Definition distinct_ids (qh : qhT) : Prop :=
  NoDup (id <$> facets_of qh (facet_list qh)).

(** * Worked engine results *)

(** An engine that answers every input alike: with the exit code
    [exitcode], the facets [result], the diagnostic text [diagnostics] and
    the memory [residual] that stays allocated after the cleanup.  Point
    ids are the positions of the points. *)
Definition empty_qh : qhT :=
  {| facet_heap := []; facet_list := []; facet_id := 0 |}.

Definition fixed_engine (exitcode : Z) (result : qhT) (diagnostics : string)
    (residual : Z * Z) : Qhull :=
  {| qh_zero := λ _, empty_qh;
     qh_new_qhull := λ _ _ _ _ _ _, (exitcode, result, diagnostics);
     qh_triangulate := λ qh, qh;
     qh_pointid := λ _ p, Z.of_nat p;
     qh_freeqhull := λ _ _, empty_qh;
     qh_memfreeshort := λ _, residual |}.

Definition vertex_of (p : pointT) : vertexT := {| point := p |}.

(** The unit square 0 = (0,0), 1 = (1,0), 2 = (1,1), 3 = (0,1) cut along
    the diagonal 0-2: two lower facets (at addresses 0 and 1, with the
    sparse ids 2 and 5) and two upper facets through the point at infinity
    (point 4). *)
Definition square_qh : qhT :=
  {| facet_heap :=
       [ {| id := 2; upperdelaunay := false; toporient := true;
            vertices := vertex_of <$> [2; 1; 0];
            neighbors := [2; 1; 3] |};
         {| id := 5; upperdelaunay := false; toporient := false;
            vertices := vertex_of <$> [3; 2; 0];
            neighbors := [0; 3; 2] |};
         {| id := 3; upperdelaunay := true; toporient := true;
            vertices := vertex_of <$> [4; 1; 0];
            neighbors := [0; 3; 1] |};
         {| id := 7; upperdelaunay := true; toporient := false;
            vertices := vertex_of <$> [4; 2; 1];
            neighbors := [0; 2; 1] |} ];
     facet_list := [0; 2; 1; 3];
     facet_id := 9 |}.

(** A host on which every allocation succeeds and the null device opens. *)
Definition good_host : host :=
  {| devnull_opens := true; points_allocate := true;
     tri_indices_allocate := true; triangles_allocate := true;
     neighbors_allocate := true; tuple_allocates := true |}.

Definition square_x : list double := Double.of_Z <$> [0; 1; 1; 0]%Z.
Definition square_y : list double := Double.of_Z <$> [0; 0; 1; 1]%Z.

(** The engine that answers with the square, and what the wrapper makes of
    its answer. *)
Definition square_engine : Qhull := fixed_engine 0 square_qh "" (0, 0)%Z.

Definition square_triangles : ndarray :=
  {| rows := 2; data := Some <$> [2; 1; 0; 0; 2; 3]%Z |}.

Definition square_neighbors : ndarray :=
  {| rows := 2; data := Some <$> [-1; -1; 1; 0; -1; -1]%Z |}.

Definition square_trace : list event :=
  [Fopen devnull true; QhZero; QhNewQhull; Fwrite devnull "";
   QhTriangulate; QhFreeQhull; QhMemFreeShort; Fclose devnull].

(** The map from facet ids to triangle indices after the vertex pass on the
    square: the ids 2 and 5 are the triangles 0 and 1, the ids 3 and 7 are
    upper facets. *)
Definition square_tri_indices : list Z := [0; 0; 0; -1; 0; 1; 0; -1; 0]%Z.

(** A host whose null device does not open. *)
Definition no_devnull_host : host :=
  {| devnull_opens := false; points_allocate := true;
     tri_indices_allocate := true; triangles_allocate := true;
     neighbors_allocate := true; tuple_allocates := true |}.

(** An engine that fails on every input with "singular input data", and one
    that fails with the exit code 6, which the table does not hold. *)
Definition singular_engine : Qhull :=
  fixed_engine 2 empty_qh "QH6154 initial simplex is flat" (0, 0)%Z.


(** An engine whose cleanup leaves memory behind. *)
Definition leaky_engine : Qhull := fixed_engine 0 square_qh "" (0, 16)%Z.

Definition leaky_trace : list event :=
  [Fopen devnull true; QhZero; QhNewQhull; Fwrite devnull "";
   QhTriangulate; QhFreeQhull; QhMemFreeShort; residual_warning;
   Fclose devnull].

(** A single triangle 0 = (0,0), 1 = (1,0), 2 = (0,1): one lower facet and
    the three upper facets around it. *)
Definition triangle_qh : qhT :=
  {| facet_heap :=
       [ {| id := 0; upperdelaunay := false; toporient := true;
            vertices := vertex_of <$> [2; 1; 0];
            neighbors := [1; 2; 3] |};
         {| id := 1; upperdelaunay := true; toporient := true;
            vertices := vertex_of <$> [3; 1; 0];
            neighbors := [0; 2; 3] |};
         {| id := 2; upperdelaunay := true; toporient := false;
            vertices := vertex_of <$> [3; 2; 0];
            neighbors := [0; 1; 3] |};
         {| id := 3; upperdelaunay := true; toporient := true;
            vertices := vertex_of <$> [3; 2; 1];
            neighbors := [0; 1; 2] |} ];
     facet_list := [0; 1; 2; 3];
     facet_id := 4 |}.

Definition triangle_engine : Qhull := fixed_engine 0 triangle_qh "" (0, 0)%Z.

Definition triangle_x : list double := Double.of_Z <$> [0; 1; 0]%Z.
Definition triangle_y : list double := Double.of_Z <$> [0; 0; 1]%Z.



Definition negative_zero : double := S754_zero true.
Definition one : double := Double.of_Z 1.

(** An engine state whose only facets are upper facets, and one in which a
    retained facet was left with four vertices. *)
Definition upper_only_qh : qhT :=
  {| facet_heap :=
       [ {| id := 0; upperdelaunay := true; toporient := true;
            vertices := vertex_of <$> [3; 1; 0];
            neighbors := [1; 1; 1] |};
         {| id := 1; upperdelaunay := true; toporient := false;
            vertices := vertex_of <$> [3; 2; 0];
            neighbors := [0; 0; 0] |} ];
     facet_list := [0; 1];
     facet_id := 2 |}.

Definition upper_only_engine : Qhull :=
  fixed_engine 0 upper_only_qh "" (0, 0)%Z.

Definition quadrilateral_qh : qhT :=
  {| facet_heap :=
       [ {| id := 0; upperdelaunay := false; toporient := true;
            vertices := vertex_of <$> [3; 2; 1; 0];
            neighbors := [1; 1; 1; 1] |};
         {| id := 1; upperdelaunay := true; toporient := false;
            vertices := vertex_of <$> [4; 2; 0];
            neighbors := [0; 0; 0] |} ];
     facet_list := [0; 1];
     facet_id := 2 |}.

Definition quadrilateral_engine : Qhull :=
  fixed_engine 0 quadrilateral_qh "" (0, 0)%Z.

(** An engine state in which the retained facet at address 0 has a
    neighbour (address 1, id 3, not an upper facet) that the facet list
    does not hold. *)
Definition stray_qh : qhT :=
  {| facet_heap :=
       [ {| id := 1; upperdelaunay := false; toporient := true;
            vertices := vertex_of <$> [2; 1; 0];
            neighbors := [1; 2; 2] |};
         {| id := 3; upperdelaunay := false; toporient := true;
            vertices := vertex_of <$> [3; 2; 1];
            neighbors := [0; 2; 2] |};
         {| id := 2; upperdelaunay := true; toporient := false;
            vertices := vertex_of <$> [4; 1; 0];
            neighbors := [0; 0; 0] |} ];
     facet_list := [0; 2];
     facet_id := 4 |}.

Definition stray_engine : Qhull := fixed_engine 0 stray_qh "" (0, 0)%Z.

Definition stray_triangles : ndarray :=
  {| rows := 1; data := Some <$> [2; 1; 0]%Z |}.

Definition stray_neighbors : ndarray :=
  {| rows := 1; data := Some <$> [-1; 0; -1]%Z |}.
(** * Properties *)

(** ** IEEE equality is a partial equivalence *)

Module DoubleFacts.
Import Double.

Lemma eqb_same a b : eqb a b = true ↔ same a b.
Proof.
  unfold eqb, SFeqb.
  destruct a as [s1|s1| |s1 m1 e1], b as [s2|s2| |s2 m2 e2]; simpl;
    try (destruct s1; simpl; intuition congruence);
    try (destruct s2; simpl; intuition congruence);
    try (intuition congruence).
  - destruct s1, s2; simpl; intuition congruence.
  - destruct s1, s2; simpl; try (intuition congruence);
      destruct (Z.compare_spec e1 e2) as [->| |]; simpl;
      try (split; [congruence | intros (_ & _ & ?); lia]);
      fold (Pos.compare m1 m2);
      destruct (Pos.compare_spec m1 m2) as [->| |]; simpl;
      try (split; [congruence | intros (_ & ? & _); lia]);
      done.
Qed.

Lemma same_sym a b : same a b → same b a.
Proof.
  destruct a as [| | |], b as [| | |]; simpl; intuition congruence.
Qed.

Lemma same_trans a b c : same a b → same b c → same a c.
Proof.
  destruct a as [| | |], b as [| | |], c as [| | |]; simpl;
    intuition congruence.
Qed.

Lemma eqb_sym a b : eqb a b = eqb b a.
Proof.
  apply eq_true_iff_eq. rewrite !eqb_same. split; apply same_sym.
Qed.

Lemma eqb_trans a b c : eqb a b = true → eqb b c = true → eqb a c = true.
Proof. rewrite !eqb_same. apply same_trans. Qed.

Lemma neb_nan_l a b : is_nan a = true → neb a b = true.
Proof. by destruct a. Qed.

Lemma neb_nan_r a b : is_nan b = true → neb a b = true.
Proof. by destruct a, b. Qed.

End DoubleFacts.

(** ** Points that do not differ *)

Lemma alike_eqb p q :
  alike p q ↔ Double.eqb p.1 q.1 = true ∧ Double.eqb p.2 q.2 = true.
Proof.
  unfold alike, differ, Double.neb, Double.eqb.
  destruct (SFeqb p.1 q.1), (SFeqb p.2 q.2); simpl; intuition congruence.
Qed.

Lemma alike_sym p q : alike p q → alike q p.
Proof.
  rewrite !alike_eqb. rewrite (DoubleFacts.eqb_sym q.1), (DoubleFacts.eqb_sym q.2).
  tauto.
Qed.

Lemma alike_trans p q r : alike p q → alike q r → alike p r.
Proof.
  rewrite !alike_eqb. intros [? ?] [? ?].
  split; eapply DoubleFacts.eqb_trans; eauto.
Qed.

Lemma differ_nan_l p q : has_nan p = true → differ p q = true.
Proof.
  unfold has_nan, differ. intros [Hn|Hn]%orb_true_iff.
  - by rewrite (DoubleFacts.neb_nan_l _ _ Hn).
  - rewrite (DoubleFacts.neb_nan_l _ _ Hn). apply orb_true_r.
Qed.

Lemma differ_nan_r p q : has_nan q = true → differ p q = true.
Proof.
  unfold has_nan, differ. intros [Hn|Hn]%orb_true_iff.
  - by rewrite (DoubleFacts.neb_nan_r _ _ Hn).
  - rewrite (DoubleFacts.neb_nan_r _ _ Hn). apply orb_true_r.
Qed.

Lemma differ_sym p q : differ p q = differ q p.
Proof.
  unfold differ, Double.neb.
  fold (Double.eqb p.1 q.1) (Double.eqb p.2 q.2)
       (Double.eqb q.1 p.1) (Double.eqb q.2 p.2).
  by rewrite (DoubleFacts.eqb_sym p.1), (DoubleFacts.eqb_sym p.2).
Qed.

(** ** The scan of the validator *)

Section Validator.
Variables x y : list double.

Lemma point_at_Some i :
  i < length x → i < length y → is_Some (point_at x y i).
Proof.
  intros [xi Hx]%lookup_lt_is_Some_2 [yi Hy]%lookup_lt_is_Some_2.
  unfold point_at. rewrite Hx, Hy. by eexists.
Qed.

Lemma point_at_lt i p : point_at x y i = Some p → i < length x.
Proof.
  unfold point_at. destruct (x !! i) eqn:Hx; [|done].
  intros _. by eapply lookup_lt_Some.
Qed.

(** The scan reads inside the arrays only. *)
Lemma unique_scan_defined fuel i unique2 :
  0 < i → unique2 < i →
  i + fuel ≤ length x → i + fuel ≤ length y →
  is_Some (unique_scan x y fuel i unique2).
Proof.
  revert i unique2.
  induction fuel as [|fuel IH]; intros i u Hi Hu Hx Hy; simpl; [by eexists|].
  destruct (point_at_Some i) as [p ->]; [lia..|].
  destruct (point_at_Some unique1) as [p1 ->]; [unfold unique1; lia..|].
  simpl. destruct (decide (u = 0)) as [->|Hne].
  - destruct (differ p p1); apply IH; lia.
  - destruct (point_at_Some u) as [p2 ->]; [lia..|]. simpl.
    destruct (differ p p1 && differ p p2); [by eexists|].
    apply IH; lia.
Qed.

(** A positive answer exhibits three points that differ pairwise: the
    points 0, [unique2] and [i]. *)
Lemma unique_scan_true fuel i unique2 :
  unique_scan x y fuel i unique2 = Some true →
  (unique2 = 0 ∨
   unique2 < i ∧ ∃ p0 p2, point_at x y 0 = Some p0 ∧
     point_at x y unique2 = Some p2 ∧ differ p2 p0 = true) →
  three_unique x y.
Proof.
  revert i unique2.
  induction fuel as [|fuel IH]; intros i u; simpl; [done|].
  destruct (point_at x y i) as [p|] eqn:Hp; [|done].
  destruct (point_at x y unique1) as [p1|] eqn:Hp1; [|done].
  simpl. destruct (decide (u = 0)) as [->|Hne].
  - intros Hscan _. destruct (differ p p1) eqn:Hd.
    + destruct (decide (i = 0)) as [->|Hi0].
      * apply (IH 1 0 Hscan). by left.
      * apply (IH (S i) i Hscan). right. split; [lia|]. by exists p1, p.
    + apply (IH (S i) 0 Hscan). by left.
  - intros Hscan [?|(Hu & p0 & p2 & Hp0 & Hp2 & Hd20)]; [done|].
    rewrite Hp2 in Hscan. simpl in Hscan.
    unfold unique1 in Hp1. rewrite Hp0 in Hp1. injection Hp1 as <-.
    destruct (differ p p0 && differ p p2) eqn:Hd.
    + apply andb_true_iff in Hd as [Hd0 Hd2].
      exists 0, u, i, p0, p2, p.
      rewrite (differ_sym p0 p2), (differ_sym p0 p), (differ_sym p2 p).
      repeat split; try done; lia.
    + apply (IH (S i) u Hscan). right. split; [lia|]. by exists p0, p2.
Qed.

Lemma unique_scan_false fuel i unique2 :
  unique_scan x y fuel i unique2 = Some false →
  two_classes x y i unique2 →
  ∃ unique2', two_classes x y (i + fuel) unique2'.
Proof.
  revert i unique2.
  induction fuel as [|fuel IH]; intros i u; simpl.
  { intros _ Hinv. exists u. by rewrite Nat.add_0_r. }
  destruct (point_at x y i) as [p|] eqn:Hp; [|done].
  destruct (point_at x y unique1) as [p1|] eqn:Hp1; [|done].
  simpl. intros Hscan (p0 & p2 & Hp0 & Hp2 & Hinv).
  unfold unique1 in Hp1. rewrite Hp0 in Hp1. injection Hp1 as <-.
  replace (i + S fuel) with (S i + fuel) by lia.
  destruct (decide (u = 0)) as [->|Hne].
  - rewrite Hp0 in Hp2. injection Hp2 as <-.
    destruct (differ p p0) eqn:Hd.
    + apply (IH _ _ Hscan). exists p0, p. repeat split; try done.
      intros m pm Hm Hpm. destruct (decide (m = i)) as [->|]; [tauto|].
      destruct (Hinv m pm) as [?|?]; [lia|done|tauto..].
    + apply (IH _ _ Hscan). exists p0, p0. repeat split; try done.
      intros m pm Hm Hpm. destruct (decide (m = i)) as [->|].
      * rewrite Hp in Hpm. injection Hpm as <-. left. by right.
      * apply Hinv; [lia|done].
  - rewrite Hp2 in Hscan. simpl in Hscan.
    destruct (differ p p0 && differ p p2) eqn:Hd; [done|].
    apply (IH _ _ Hscan). exists p0, p2. repeat split; try done.
    intros m pm Hm Hpm. destruct (decide (m = i)) as [->|].
    + rewrite Hp in Hpm. injection Hpm as <-.
      apply andb_false_iff in Hd as [Hd|Hd]; [left|right]; by right.
    + apply Hinv; [lia|done].
Qed.

(** Two classes of alike points hold no three points that differ
    pairwise. *)
Lemma two_classes_not_three n unique2 :
  length x ≤ n → two_classes x y n unique2 → ¬ three_unique x y.
Proof.
  intros Hn (p0 & p2 & Hp0 & Hp2 & Hinv)
         (i & j & k & p & q & r & Hij & Hjk & Hp & Hq & Hr & Hpq & Hpr & Hqr).
  assert (Hlt : ∀ m pm, point_at x y m = Some pm → m < n)
    by (intros m pm Hm; apply point_at_lt in Hm; lia).
  assert (Hsame : ∀ a b pa pb c pc, a ≠ b →
            point_at x y a = Some pa → point_at x y b = Some pb →
            point_at x y c = Some pc →
            (a = c ∨ alike pa pc) → (b = c ∨ alike pb pc) →
            differ pa pb = true → False).
  { intros a b pa pb c pc Hab Ha Hb Hc [->|Hac] [->|Hbc] Hd.
    - done.
    - rewrite Hc in Ha. injection Ha as ->.
      apply alike_sym in Hbc. unfold alike in Hbc. congruence.
    - rewrite Hc in Hb. injection Hb as ->.
      unfold alike in Hac. congruence.
    - pose proof (alike_trans _ _ _ Hac (alike_sym _ _ Hbc)) as Hab'.
      unfold alike in Hab'. congruence. }
  destruct (Hinv i p (Hlt _ _ Hp) Hp) as [Hi|Hi],
           (Hinv j q (Hlt _ _ Hq) Hq) as [Hj|Hj],
           (Hinv k r (Hlt _ _ Hr) Hr) as [Hk|Hk];
    first [ by eapply (Hsame i j p q _ _ ltac:(lia) Hp Hq Hp0 Hi Hj)
          | by eapply (Hsame i k p r _ _ ltac:(lia) Hp Hr Hp0 Hi Hk)
          | by eapply (Hsame j k q r _ _ ltac:(lia) Hq Hr Hp0 Hj Hk)
          | by eapply (Hsame i j p q _ _ ltac:(lia) Hp Hq Hp2 Hi Hj)
          | by eapply (Hsame i k p r _ _ ltac:(lia) Hp Hr Hp2 Hi Hk)
          | by eapply (Hsame j k q r _ _ ltac:(lia) Hq Hr Hp2 Hj Hk) ].
Qed.

(** On arrays of [npoints] elements the validator answers, and answers
    true exactly when three points differ pairwise. *)
Lemma at_least_3_unique_points_spec :
  length x = length y →
  ∃ b, at_least_3_unique_points (length x) x y = Some b ∧
       (b = true ↔ three_unique x y).
Proof.
  intros Hlen. unfold at_least_3_unique_points.
  destruct (decide (length x < 3)) as [Hshort|Hlong].
  - exists false. split; [done|]. split; [done|].
    intros (i & j & k & p & q & r & Hij & Hjk & _ & _ & Hr & _).
    apply point_at_lt in Hr. lia.
  - destruct (unique_scan_defined (length x - 1) 1 0) as [b Hb]; [lia..|].
    exists b. split; [done|]. destruct b.
    + split; [|done]. intros _. eapply unique_scan_true; [exact Hb|by left].
    + split; [done|]. intros H3. exfalso.
      destruct (point_at_Some 0) as [p0 Hp0]; [lia..|].
      destruct (unique_scan_false _ _ _ Hb) as [u Hu].
      { exists p0, p0. repeat split; try done.
        intros m pm Hm _. left. left. lia. }
      eapply two_classes_not_three; [|exact Hu|exact H3]. lia.
Qed.

End Validator.

(** ** Buffers *)

Lemma store_Some b i v b' :
  store b i v = Some b' → i < length b ∧ b' = <[i := Some v]> b.
Proof. unfold store. case_decide; naive_solver. Qed.

Lemma vstore_Some {A} (l : list A) i a l' :
  vstore l i a = Some l' → i < length l ∧ l' = <[i := a]> l.
Proof. unfold vstore. case_decide; naive_solver. Qed.

Lemma load_insert_eq (b : buffer) i v :
  i < length b → load (<[i := Some v]> b) i = Some v.
Proof. intros Hi. unfold load. by rewrite list_lookup_insert_eq. Qed.

Lemma load_insert_ne (b : buffer) i j v :
  i ≠ j → load (<[i := Some v]> b) j = load b j.
Proof. intros Hne. unfold load. by rewrite list_lookup_insert_ne. Qed.

(** Three values read back from a local [int indices[3]] that a facet
    accessor filled: the accessor wrote exactly three. *)
Lemma write_all_3 vals b i0 i1 i2 :
  write_all vals (uninitialised 3) 0 = Some b →
  load b 0 = Some i0 → load b 1 = Some i1 → load b 2 = Some i2 →
  vals = [i0; i1; i2].
Proof.
  destruct vals as [|a [|b0 [|c [|d vals]]]]; cbv; intros Hw;
    try discriminate; injection Hw as <-; congruence.
Qed.

Lemma write_all_3_defined i0 i1 i2 :
  ∃ b, write_all [i0; i1; i2] (uninitialised 3) 0 = Some b ∧
       load b 0 = Some i0 ∧ load b 1 = Some i1 ∧ load b 2 = Some i2.
Proof. eexists. by cbv. Qed.

(** ** The facet list *)

Lemma retained_of_nil qh : retained_of qh [] = [].
Proof. done. Qed.

Lemma retained_of_cons qh p ps f :
  facet_heap qh !! p = Some f →
  retained_of qh (p :: ps) =
    if upperdelaunay f then retained_of qh ps else f :: retained_of qh ps.
Proof.
  intros Hf. unfold retained_of, facets_of. simpl. rewrite Hf. simpl.
  destruct (upperdelaunay f) eqn:Hup.
  - rewrite filter_cons_False; [done|]. by rewrite Hup.
  - by rewrite filter_cons_True.
Qed.

Lemma facets_of_cons qh p ps f :
  facet_heap qh !! p = Some f → facets_of qh (p :: ps) = f :: facets_of qh ps.
Proof. intros Hf. unfold facets_of. simpl. by rewrite Hf. Qed.

(** Inversion of one monadic step of a pass. *)
Ltac bind_inv H :=
  repeat match type of H with
    | context [mbind _ ?m] =>
        let E := fresh "E" in
        destruct m eqn:E; simpl in H; [|discriminate H]
    end.

Section Passes.
Context `{Qhull}.
Variable qh : qhT.

(** The counting pass counts the retained facets. *)
Lemma count_triangles_spec facets ntri ntri' :
  count_triangles qh facets ntri = Some ntri' →
  ntri' = ntri + length (retained_of qh facets).
Proof.
  revert ntri. induction facets as [|p facets IH]; intros ntri Hc; simpl in Hc.
  - injection Hc as <-. rewrite retained_of_nil. simpl. lia.
  - destruct (facet_heap qh !! p) as [f|] eqn:Hf; simpl in Hc; [|done].
    rewrite (retained_of_cons _ _ _ _ Hf). apply IH in Hc.
    destruct (upperdelaunay f); simpl in *; lia.
Qed.

(** The vertex pass: the buffer keeps its size, the cells before the write
    pointer are left alone, and row [k] from the pointer on holds the
    vertices of the [k]-th retained facet, reordered by [toporient]. *)
Lemma emit_triangles_buffer facets :
  ∀ i tri_indices triangles ptr tri_indices' triangles',
    emit_triangles qh facets i tri_indices triangles ptr
      = Some (tri_indices', triangles') →
    length triangles' = length triangles ∧
    (∀ j, j < ptr → triangles' !! j = triangles !! j) ∧
    (∀ k f, retained_of qh facets !! k = Some f →
       length (native_vertices qh f) = 3 ∧
       ∀ c, c < 3 →
         load triangles' (ptr + 3 * k + c)
           = native_vertices qh f !! vertex_slot (toporient f) c).
Proof.
  induction facets as [|p facets IH]; intros i ti buf ptr ti' buf' He;
    simpl in He.
  { injection He as <- <-. rewrite retained_of_nil. by repeat split. }
  destruct (facet_heap qh !! p) as [f|] eqn:Hf; simpl in He; [|done].
  rewrite (retained_of_cons _ _ _ _ Hf).
  destruct (upperdelaunay f) eqn:Hup; simpl in He.
  { bind_inv He. by apply IH in He. }
  bind_inv He.
  apply IH in He as (Hlen & Hframe & Hrows).
  pose proof (write_all_3 _ _ _ _ _ E0 E1 E2 E3) as Hnative.
  fold (native_vertices qh f) in Hnative.
  apply store_Some in E4 as [Hb0 ->].
  apply store_Some in E5 as [Hb1 ->].
  apply store_Some in E6 as [Hb2 ->].
  rewrite !length_insert in *.
  split; [done|]. split.
  { intros j Hj. rewrite Hframe by lia.
    by rewrite !list_lookup_insert_ne by lia. }
  intros [|k] g Hg; simpl in Hg.
  - injection Hg as <-. split; [by rewrite Hnative|].
    intros c Hc. unfold load. rewrite Hframe by lia. rewrite Hnative.
    destruct c as [|[|[|c]]]; [| | |lia].
    + replace (ptr + 3 * 0 + 0) with ptr by lia.
      rewrite !list_lookup_insert_ne by lia.
      rewrite list_lookup_insert_eq by lia. by destruct (toporient f).
    + replace (ptr + 3 * 0 + 1) with (ptr + 1) by lia.
      rewrite list_lookup_insert_ne by lia.
      by rewrite list_lookup_insert_eq by (rewrite ?length_insert; lia).
    + replace (ptr + 3 * 0 + 2) with (ptr + 2) by lia.
      rewrite list_lookup_insert_eq by (rewrite ?length_insert; lia).
      by destruct (toporient f).
  - destruct (Hrows k g Hg) as [Hl Hrow]. split; [done|].
    intros c Hc. rewrite <- (Hrow c Hc). f_equal. lia.
Qed.

(** The vertex pass fills the map from facet ids to triangle indices with
    -1 and with the indices [i], [i+1], ... only. *)
Lemma emit_triangles_indices_range facets :
  ∀ i tri_indices triangles ptr tri_indices' triangles',
    emit_triangles qh facets i tri_indices triangles ptr
      = Some (tri_indices', triangles') →
    length tri_indices' = length tri_indices ∧
    ∀ j v, tri_indices' !! j = Some v →
      tri_indices !! j = Some v ∨ v = (-1)%Z ∨
      (Z.of_nat i ≤ v < Z.of_nat (i + length (retained_of qh facets)))%Z.
Proof.
  induction facets as [|p facets IH]; intros i ti buf ptr ti' buf' He;
    simpl in He.
  { injection He as <- <-. split; [done|]. intros j v Hv. by left. }
  destruct (facet_heap qh !! p) as [f|] eqn:Hf; simpl in He; [|done].
  rewrite (retained_of_cons _ _ _ _ Hf).
  destruct (upperdelaunay f) eqn:Hup; simpl in He; bind_inv He;
    apply IH in He as [Hlen Hrange];
    apply vstore_Some in E as [Hid ->];
    rewrite length_insert in Hlen; (split; [done|]);
    intros j v Hv; apply Hrange in Hv as [Hv|[Hv|Hv]];
    try apply list_lookup_insert_Some in Hv as [(_ & <- & _)|[_ Hv]];
    simpl; auto; right; right; lia.
Qed.

(** When the facets of the list have distinct ids, the map sends the id of
    the [k]-th retained facet to [i + k] and the id of an upper facet to -1. *)
Lemma emit_triangles_indices_nodup facets :
  ∀ i tri_indices triangles ptr tri_indices' triangles',
    NoDup (id <$> facets_of qh facets) →
    emit_triangles qh facets i tri_indices triangles ptr
      = Some (tri_indices', triangles') →
    (∀ j, j ∉ id <$> facets_of qh facets →
       tri_indices' !! j = tri_indices !! j) ∧
    (∀ k f, retained_of qh facets !! k = Some f →
       tri_indices' !! id f = Some (Z.of_nat (i + k))) ∧
    (∀ f, f ∈ facets_of qh facets → upperdelaunay f = true →
       tri_indices' !! id f = Some (-1)%Z).
Proof.
  induction facets as [|p facets IH]; intros i ti buf ptr ti' buf' Hnd He;
    simpl in He.
  { injection He as <- <-. rewrite retained_of_nil.
    split; [done|]. split; [done|]. intros f Hin. by apply elem_of_nil in Hin. }
  destruct (facet_heap qh !! p) as [f|] eqn:Hf; simpl in He; [|done].
  rewrite (retained_of_cons _ _ _ _ Hf).
  rewrite (facets_of_cons _ _ _ _ Hf) in *.
  rewrite fmap_cons in *. apply NoDup_cons in Hnd as [Hfresh Hnd].
  destruct (upperdelaunay f) eqn:Hup; simpl in He; bind_inv He;
    apply (IH _ _ _ _ _ _ Hnd) in He as (Hout & Hkept & Hupper);
    apply vstore_Some in E as [Hid ->].
  - split; [|split].
    + intros j Hj. apply not_elem_of_cons in Hj as [Hne Hj].
      rewrite (Hout j Hj). by rewrite list_lookup_insert_ne.
    + done.
    + intros g [->|Hg]%elem_of_cons Hg'; [|by apply Hupper].
      rewrite (Hout _ Hfresh). by rewrite list_lookup_insert_eq.
  - split; [|split].
    + intros j Hj. apply not_elem_of_cons in Hj as [Hne Hj].
      rewrite (Hout j Hj). by rewrite list_lookup_insert_ne.
    + intros [|k] g Hg; simpl in Hg.
      * injection Hg as <-. rewrite (Hout _ Hfresh).
        rewrite list_lookup_insert_eq by done. do 2 f_equal. lia.
      * rewrite (Hkept k g Hg). do 2 f_equal. lia.
    + intros g [->|Hg]%elem_of_cons Hg'; [congruence|by apply Hupper].
Qed.

(** The neighbour pass: row [k] from the pointer on holds the triangle
    indices of the neighbours of the [k]-th retained facet, reordered by
    [toporient]. *)
Lemma emit_neighbors_buffer facets :
  ∀ tri_indices buf ptr buf',
    emit_neighbors qh facets tri_indices buf ptr = Some buf' →
    length buf' = length buf ∧
    (∀ j, j < ptr → buf' !! j = buf !! j) ∧
    (∀ k f, retained_of qh facets !! k = Some f →
       ∃ vals, native_neighbours qh tri_indices f = Some vals ∧
         length vals = 3 ∧
         ∀ c, c < 3 →
           load buf' (ptr + 3 * k + c)
             = vals !! neighbor_slot (toporient f) c).
Proof.
  induction facets as [|p facets IH]; intros ti buf ptr buf' He; simpl in He.
  { injection He as <-. rewrite retained_of_nil. by repeat split. }
  destruct (facet_heap qh !! p) as [f|] eqn:Hf; simpl in He; [|done].
  rewrite (retained_of_cons _ _ _ _ Hf).
  destruct (upperdelaunay f) eqn:Hup; simpl in He.
  { by apply IH in He. }
  unfold get_facet_neighbours in He.
  destruct (mapM (neighbour_index qh ti) (neighbors f)) as [vals|] eqn:Hvals;
    simpl in He; [|done].
  destruct (write_all vals (uninitialised 3) 0) as [ind|] eqn:Hw;
    simpl in He; [|done].
  destruct (load ind 0) as [i0|] eqn:H0; simpl in He; [|done].
  destruct (load ind 1) as [i1|] eqn:H1; simpl in He; [|done].
  destruct (load ind 2) as [i2|] eqn:H2; simpl in He; [|done].
  bind_inv He.
  apply IH in He as (Hlen & Hframe & Hrows).
  pose proof (write_all_3 _ _ _ _ _ Hw H0 H1 H2) as ->.
  apply store_Some in E as [Hb0 ->].
  apply store_Some in E0 as [Hb1 ->].
  apply store_Some in E1 as [Hb2 ->].
  rewrite !length_insert in *.
  split; [done|]. split.
  { intros j Hj. rewrite Hframe by lia.
    by rewrite !list_lookup_insert_ne by lia. }
  intros [|k] g Hg; simpl in Hg.
  - injection Hg as <-. eexists. split; [exact Hvals|]. split; [done|].
    intros c Hc. unfold load. rewrite Hframe by lia.
    destruct c as [|[|[|c]]]; [| | |lia].
    + replace (ptr + 3 * 0 + 0) with ptr by lia.
      rewrite !list_lookup_insert_ne by lia.
      rewrite list_lookup_insert_eq by lia. by destruct (toporient f).
    + replace (ptr + 3 * 0 + 1) with (ptr + 1) by lia.
      rewrite list_lookup_insert_ne by lia.
      rewrite list_lookup_insert_eq by (rewrite ?length_insert; lia).
      by destruct (toporient f).
    + replace (ptr + 3 * 0 + 2) with (ptr + 2) by lia.
      by rewrite list_lookup_insert_eq by (rewrite ?length_insert; lia).
  - destruct (Hrows k g Hg) as (vals' & Hvals' & Hl & Hrow).
    exists vals'. split; [done|]. split; [done|].
    intros c Hc. rewrite <- (Hrow c Hc). f_equal. lia.
Qed.

End Passes.

(** ** The translator as a whole *)

Ltac run_monad :=
  unfold vector, array_view, defined, scoped, emit, put_qh, get_qh, throw,
    undefined, mbind, M_bind, mret, M_ret;
  simpl.

Section WrapperFacts.
Context `{Qhull}.

Lemma QhullInfo_dtor_run error_file qh :
  QhullInfo_dtor error_file qh
  = (Ret (), qh_freeqhull qh (negb qh_ALL), cleanup_events error_file qh).
Proof.
  unfold QhullInfo_dtor, cleanup_events. run_monad.
  destruct (qh_memfreeshort _) as [curlong totlong]. simpl.
  by destruct (bool_decide (curlong ≠ 0%Z) || bool_decide (totlong ≠ 0%Z)),
            (bool_decide (error_file ≠ stderr)).
Qed.

Lemma scoped_run {A} error_file (body : M A) qh :
  scoped (QhullInfo_dtor error_file) body qh = guarded error_file (body qh).
Proof.
  unfold scoped, guarded. destruct (body qh) as [[r qh1] t].
  rewrite QhullInfo_dtor_run. by destruct r.
Qed.

Lemma translate_facets_run h qh :
  translate_facets h qh
  = (translate_result h (qh_triangulate qh), qh_triangulate qh,
     [QhTriangulate]).
Proof.
  unfold translate_facets, translate_result. run_monad.
  destruct (count_triangles _ _ _) as [ntri|]; simpl; [|done].
  destruct (tri_indices_allocate h); simpl; [|done].
  destruct (triangles_allocate h); simpl; [|done].
  destruct (neighbors_allocate h); simpl; [|done].
  destruct (emit_triangles _ _ _ _ _ _) as [[ti tri]|]; simpl; [|done].
  destruct (emit_neighbors _ _ _ _ _) as [nb|]; simpl; [|done].
  by destruct (tuple_allocates h).
Qed.

Lemma triangulate_run h npoints points error_file hide qh0 :
  triangulate h npoints points error_file hide qh0
  = triangulate_outcome h error_file hide
      (qh_new_qhull (qh_zero qh0) ndim npoints points false
         "qhull d Qt Qbb Qc Qz").
Proof.
  unfold triangulate, triangulate_outcome.
  unfold emit, put_qh, get_qh, mbind, M_bind. simpl.
  destruct (qh_new_qhull _ _ _ _ _ _) as [[exitcode qh1] diagnostics]. simpl.
  destruct (bool_decide (exitcode ≠ qh_ERRnone)).
  - run_monad. by destruct (qhull_error_msg_at exitcode).
  - by rewrite translate_facets_run.
Qed.

(** The whole of [delaunay_impl], path by path. *)
Lemma delaunay_impl_run h npoints x y hide qh0 :
  delaunay_impl h npoints x y hide qh0 =
    if negb (points_allocate h) then (Throw bad_alloc, qh0, [])
    else
      match engine_run npoints x y qh0 with
      | None => (Undef, qh0, [])
      | Some answer =>
          if hide then
            if devnull_opens h then
              let '(r, qh, t) :=
                guarded devnull (triangulate_outcome h devnull true answer) in
              (r, qh, Fopen devnull true :: t)
            else (Throw (runtime_error "Could not open devnull"), qh0,
                  [Fopen devnull false])
          else guarded stderr (triangulate_outcome h stderr false answer)
      end.
Proof.
  unfold delaunay_impl, engine_run, open_error_file.
  unfold vector, defined, emit, throw, undefined, mbind at 1 2 3, M_bind,
    mret, M_ret.
  destruct (points_allocate h); simpl; [|done].
  destruct (centred_points _ _ _ _) as [points|]; simpl; [|done].
  destruct hide; simpl.
  - destruct (devnull_opens h); simpl; [|done].
    rewrite scoped_run, triangulate_run.
    by destruct (guarded _ _) as [[[] ?] ?].
  - rewrite scoped_run, triangulate_run.
    by destruct (guarded _ _) as [[[] ?] ?].
Qed.

(** The whole of [delaunay], path by path. *)
Lemma delaunay_run h x y verbose qh0 :
  delaunay h x y verbose qh0 =
    if bool_decide (length x ≠ length y) then
      (Ret None, qh0,
       [PyErrSetString ValueError
          "x and y must be 1D arrays of the same length"])
    else if bool_decide (length x < 3) then
      (Ret None, qh0,
       [PyErrSetString ValueError
          "x and y arrays must have a length of at least 3"])
    else
      match at_least_3_unique_points (length x) x y with
      | None => (Undef, qh0, [])
      | Some false =>
          (Ret None, qh0,
           [PyErrSetString ValueError
              "x and y arrays must consist of at least 3 unique points"])
      | Some true =>
          delaunay_impl h (length x) x y (bool_decide (verbose = 0%Z)) qh0
      end.
Proof.
  unfold delaunay.
  destruct (bool_decide (length x ≠ length y)); [done|].
  destruct (bool_decide (length x < 3)); [done|].
  unfold defined, mbind, M_bind at 1, mret, M_ret, undefined.
  destruct (at_least_3_unique_points (length x) x y) as [[]|]; simpl;
    [|done|done].
  by destruct (delaunay_impl _ _ _ _ _ _) as [[[] ?] ?].
Qed.

End WrapperFacts.

(** ** The passes on a well-formed engine state *)

Section Defined.
Context `{Qhull}.
Variable qh : qhT.

Lemma count_triangles_defined facets ntri :
  (∀ p, p ∈ facets → is_Some (facet_heap qh !! p)) →
  is_Some (count_triangles qh facets ntri).
Proof.
  revert ntri. induction facets as [|p facets IH]; intros ntri Hp; simpl.
  - by eexists.
  - destruct (Hp p) as [f ->]; [apply list_elem_of_here|]. simpl.
    apply IH. intros p' Hp'. apply Hp. by apply list_elem_of_further.
Qed.

Lemma store_defined (b : buffer) i v :
  i < length b → store b i v = Some (<[i := Some v]> b).
Proof. intros Hi. unfold store. by rewrite decide_True. Qed.

Lemma vstore_defined {A} (l : list A) i a :
  i < length l → vstore l i a = Some (<[i := a]> l).
Proof. intros Hi. unfold vstore. by rewrite decide_True. Qed.

Lemma emit_triangles_defined facets :
  ∀ i tri_indices triangles ptr,
    (∀ p, p ∈ facets →
       ∃ f, facet_heap qh !! p = Some f ∧ id f < length tri_indices ∧
            (upperdelaunay f = false → length (vertices f) = 3)) →
    ptr + 3 * length (retained_of qh facets) ≤ length triangles →
    ∃ tri_indices' triangles',
      emit_triangles qh facets i tri_indices triangles ptr
        = Some (tri_indices', triangles') ∧
      length tri_indices' = length tri_indices.
Proof.
  induction facets as [|p facets IH]; intros i ti buf ptr Hwf Hcap; simpl.
  { by eexists _, _. }
  destruct (Hwf p) as (f & Hf & Hid & Hvert); [apply list_elem_of_here|].
  rewrite Hf. simpl. rewrite (retained_of_cons _ _ _ _ Hf) in Hcap.
  assert (Hrest : ∀ ti' : list Z, length ti' = length ti → ∀ p', p' ∈ facets →
            ∃ f', facet_heap qh !! p' = Some f' ∧ id f' < length ti' ∧
                  (upperdelaunay f' = false → length (vertices f') = 3)).
  { intros ti' Hlen p' Hp'. rewrite Hlen. apply Hwf.
    by apply list_elem_of_further. }
  destruct (upperdelaunay f) eqn:Hup; simpl.
  - rewrite vstore_defined by done. simpl.
    destruct (IH i (<[id f := (-1)%Z]> ti) buf ptr) as (ti' & buf' & -> & Hl).
    + apply Hrest. by rewrite length_insert.
    + done.
    + eexists _, _. split; [done|]. by rewrite Hl, length_insert.
  - rewrite vstore_defined by done. simpl in *.
    unfold get_facet_vertices.
    destruct (vertices f) as [|a [|b [|c [|]]]] eqn:Hv;
      try (specialize (Hvert eq_refl); done).
    rewrite !fmap_cons, fmap_nil.
    destruct (write_all_3_defined (qh_pointid qh (point a))
                (qh_pointid qh (point b)) (qh_pointid qh (point c)))
      as (ind & Hw & H0 & H1 & H2).
    rewrite Hw. simpl. rewrite H0. simpl. rewrite H1. simpl.
    rewrite H2. simpl.
    rewrite store_defined by lia. simpl.
    rewrite store_defined by (rewrite ?length_insert; lia). simpl.
    rewrite store_defined by (rewrite ?length_insert; lia). simpl.
    edestruct (IH (S i)) as (ti' & buf' & -> & Hl).
    + apply Hrest. by rewrite length_insert.
    + rewrite !length_insert. lia.
    + eexists _, _. split; [done|]. by rewrite Hl, length_insert.
Qed.

Lemma neighbour_index_defined tri_indices p g :
  facet_heap qh !! p = Some g →
  (upperdelaunay g = false → id g < length tri_indices) →
  is_Some (neighbour_index qh tri_indices p).
Proof.
  intros Hg Hid. unfold neighbour_index. rewrite Hg. simpl.
  destruct (upperdelaunay g); [by eexists|].
  by apply lookup_lt_is_Some_2, Hid.
Qed.

Lemma emit_neighbors_defined facets :
  ∀ tri_indices buf ptr,
    (∀ p, p ∈ facets →
       ∃ f, facet_heap qh !! p = Some f ∧
            (upperdelaunay f = false →
             length (neighbors f) = 3 ∧
             ∀ p', p' ∈ neighbors f →
               ∃ g, facet_heap qh !! p' = Some g ∧
                    (upperdelaunay g = false → id g < length tri_indices))) →
    ptr + 3 * length (retained_of qh facets) ≤ length buf →
    is_Some (emit_neighbors qh facets tri_indices buf ptr).
Proof.
  induction facets as [|p facets IH]; intros ti buf ptr Hwf Hcap; simpl.
  { by eexists. }
  destruct (Hwf p) as (f & Hf & Hnb); [apply list_elem_of_here|].
  rewrite Hf. simpl. rewrite (retained_of_cons _ _ _ _ Hf) in Hcap.
  assert (Hrest : ∀ p', p' ∈ facets →
            ∃ f', facet_heap qh !! p' = Some f' ∧
              (upperdelaunay f' = false →
               length (neighbors f') = 3 ∧
               ∀ p'', p'' ∈ neighbors f' →
                 ∃ g, facet_heap qh !! p'' = Some g ∧
                      (upperdelaunay g = false → id g < length ti))).
  { intros p' Hp'. apply Hwf. by apply list_elem_of_further. }
  destruct (upperdelaunay f) eqn:Hup; simpl.
  { by apply IH. }
  destruct (Hnb eq_refl) as [Hlen Hptr]. simpl in Hcap.
  unfold get_facet_neighbours.
  destruct (neighbors f) as [|a [|b [|c [|]]]] eqn:Hn; try done.
  assert (Hone : ∀ p', p' ∈ [a; b; c] →
            is_Some (neighbour_index qh ti p')).
  { intros p' Hp'. destruct (Hptr p' Hp') as (g & Hg & Hid).
    by eapply neighbour_index_defined. }
  destruct (Hone a) as [va Hva]; [apply list_elem_of_here|].
  destruct (Hone b) as [vb Hvb];
    [apply list_elem_of_further, list_elem_of_here|].
  destruct (Hone c) as [vc Hvc];
    [do 2 apply list_elem_of_further; apply list_elem_of_here|].
  simpl. rewrite Hva, Hvb, Hvc. simpl.
  rewrite store_defined by lia. simpl.
  rewrite store_defined by (rewrite ?length_insert; lia). simpl.
  rewrite store_defined by (rewrite ?length_insert; lia). simpl.
  apply IH; [done|]. rewrite !length_insert. lia.
Qed.

(** On a well-formed engine state, with the allocations granted, the
    passes return the two matrices. *)
Lemma translate_result_defined h :
  well_formed qh → allocates_all h →
  ∃ tri nb, translate_result h qh = Ret (Some (tri, nb)).
Proof.
  intros Hwf (Hti & Htri & Hnb & Htuple). unfold translate_result.
  destruct (count_triangles_defined (facet_list qh) 0) as [ntri Hcount].
  { intros p Hp. destruct (Hwf p Hp) as (f & -> & _). by eexists. }
  rewrite Hcount. apply count_triangles_spec in Hcount. simpl in Hcount.
  rewrite Hti, Htri, Hnb, Htuple. simpl.
  destruct (emit_triangles_defined (facet_list qh) 0
              (replicate (facet_id qh) 0%Z) (uninitialised (ntri * 3)) 0)
    as (ti' & tri & -> & Hl).
  { intros p Hp. destruct (Hwf p Hp) as (f & Hf & Hid & Hs).
    exists f. rewrite length_replicate. split; [done|]. split; [done|].
    intros Hup. by destruct (Hs Hup). }
  { unfold uninitialised. rewrite length_replicate. lia. }
  rewrite length_replicate in Hl.
  destruct (emit_neighbors_defined (facet_list qh) ti'
              (uninitialised (ntri * 3)) 0) as [nb ->].
  { intros p Hp. destruct (Hwf p Hp) as (f & Hf & Hid & Hs).
    exists f. split; [done|]. intros Hup.
    destruct (Hs Hup) as (_ & Hlen & Hptr). split; [done|].
    intros p' Hp'. rewrite Hl. by apply Hptr. }
  { unfold uninitialised. rewrite length_replicate. lia. }
  by eexists _, _.
Qed.

End Defined.

(** * The output matrices *)

Section Matrices.
Context `{Qhull}.

(** A call that returns the two matrices went through the engine with exit
    code 0 and through the three passes. *)
Lemma delaunay_impl_success h npoints x y hide qh0 tri nb qh' t :
  delaunay_impl h npoints x y hide qh0 = (Ret (Some (tri, nb)), qh', t) →
  ∃ qh1 diagnostics tri_indices,
    engine_run npoints x y qh0 = Some (0%Z, qh1, diagnostics) ∧
    let qh := qh_triangulate qh1 in
    count_triangles qh (facet_list qh) 0 = Some (length (retained qh)) ∧
    rows tri = length (retained qh) ∧ rows nb = length (retained qh) ∧
    emit_triangles qh (facet_list qh) 0 (replicate (facet_id qh) 0%Z)
      (uninitialised (length (retained qh) * 3)) 0
      = Some (tri_indices, data tri) ∧
    emit_neighbors qh (facet_list qh) tri_indices
      (uninitialised (length (retained qh) * 3)) 0 = Some (data nb).
Proof.
  rewrite delaunay_impl_run.
  destruct (points_allocate h); simpl; [|done].
  destruct (engine_run npoints x y qh0) as [[[exitcode qh1] diag]|]; [|done].
  assert (Hcore : ∀ error_file hd qh'' t',
    guarded error_file (triangulate_outcome h error_file hd (exitcode, qh1, diag))
      = (Ret (Some (tri, nb)), qh'', t') →
    ∃ tri_indices, exitcode = 0%Z ∧
      let qh := qh_triangulate qh1 in
      count_triangles qh (facet_list qh) 0 = Some (length (retained qh)) ∧
      rows tri = length (retained qh) ∧ rows nb = length (retained qh) ∧
      emit_triangles qh (facet_list qh) 0 (replicate (facet_id qh) 0%Z)
        (uninitialised (length (retained qh) * 3)) 0
        = Some (tri_indices, data tri) ∧
      emit_neighbors qh (facet_list qh) tri_indices
        (uninitialised (length (retained qh) * 3)) 0 = Some (data nb)).
  { intros error_file hd qh'' t'. unfold triangulate_outcome, guarded.
    case_bool_decide as Hcode.
    { destruct (qhull_error_msg_at exitcode); [|done]. intros [=]. }
    assert (exitcode = 0%Z) as -> by (unfold qh_ERRnone in Hcode; lia).
    unfold translate_result.
    destruct (count_triangles _ _ _) as [ntri|] eqn:Hcount; [|done].
    apply count_triangles_spec in Hcount as Hntri. simpl in Hntri.
    fold (retained (qh_triangulate qh1)) in Hntri. subst ntri.
    destruct (tri_indices_allocate h); simpl; [|done].
    destruct (triangles_allocate h); simpl; [|done].
    destruct (neighbors_allocate h); simpl; [|done].
    destruct (emit_triangles _ _ _ _ _ _) as [[ti tb]|] eqn:Ht; [|done].
    destruct (emit_neighbors _ _ _ _ _) as [nbuf|] eqn:Hn; [|done].
    destruct (tuple_allocates h); [|done].
    intros [= <- <- _ _]. exists ti. by repeat split. }
  destruct hide.
  - destruct (devnull_opens h); [|done].
    destruct (guarded _ _) as [[r qh''] t'] eqn:Hg. intros [= -> -> _].
    apply Hcore in Hg as (ti & -> & Hrest). by exists qh1, diag, ti.
  - intros Hg. apply Hcore in Hg as (ti & -> & Hrest). by exists qh1, diag, ti.
Qed.

(** The cell [3 * i + c] of a matrix is its entry [(i, c)]. *)
Lemma entry_load a i c : entry a i c = load (data a) (0 + 3 * i + c).
Proof. done. Qed.

(** C2: for every retained facet, with (slot0, slot1, slot2) the input-point
    indices of its three vertices in the engine's order, the row of the
    triangles matrix is (slot0, slot1, slot2) when toporient is true and
    (slot2, slot1, slot0) when it is false. *)
Theorem triangles_row_follows_toporient h npoints x y hide qh0 tri nb qh' t :
  delaunay_impl h npoints x y hide qh0 = (Ret (Some (tri, nb)), qh', t) →
  ∃ qh1 diagnostics,
    engine_run npoints x y qh0 = Some (0%Z, qh1, diagnostics) ∧
    let qh := qh_triangulate qh1 in
    rows tri = length (retained qh) ∧
    ∀ i f, retained qh !! i = Some f →
      ∃ slot0 slot1 slot2,
        native_vertices qh f = [slot0; slot1; slot2] ∧
        (entry tri i 0, entry tri i 1, entry tri i 2) =
          if toporient f
          then (Some slot0, Some slot1, Some slot2)
          else (Some slot2, Some slot1, Some slot0).
Proof.
  intros Hrun.
  apply delaunay_impl_success in Hrun
    as (qh1 & diag & ti & Hengine & _ & Hrows & _ & Htri & _).
  exists qh1, diag. split; [done|]. split; [done|].
  intros i f Hf.
  apply emit_triangles_buffer in Htri as (_ & _ & Hrow).
  destruct (Hrow i f Hf) as [Hlen Hcells].
  destruct (native_vertices (qh_triangulate qh1) f)
    as [|s0 [|s1 [|s2 [|]]]] eqn:Hnative; try done.
  exists s0, s1, s2. split; [done|].
  rewrite !entry_load, !Hcells by lia.
  by destruct (toporient f).
Qed.

End Matrices.

(** The square: the call returns the two triangles of the square. *)
Lemma square_run :
  delaunay_impl (H := square_engine) good_host 4 square_x square_y true empty_qh
  = (Ret (Some (square_triangles, square_neighbors)), empty_qh, square_trace).
Proof. vm_compute. reflexivity. Qed.

Lemma triangles_row_follows_toporient_witness :
  ∃ qh1 diagnostics,
    engine_run (H := square_engine) 4 square_x square_y empty_qh
      = Some (0%Z, qh1, diagnostics) ∧
    let qh := qh_triangulate (Qhull := square_engine) qh1 in
    rows square_triangles = length (retained qh) ∧
    ∀ i f, retained qh !! i = Some f →
      ∃ slot0 slot1 slot2,
        native_vertices (H := square_engine) qh f = [slot0; slot1; slot2] ∧
        (entry square_triangles i 0, entry square_triangles i 1,
         entry square_triangles i 2) =
          if toporient f
          then (Some slot0, Some slot1, Some slot2)
          else (Some slot2, Some slot1, Some slot0).
Proof.
  apply (triangles_row_follows_toporient (H := square_engine) good_host 4
           square_x square_y true empty_qh square_triangles square_neighbors
           empty_qh square_trace).
  vm_compute. reflexivity.
Defined.

(** ** The neighbours matrix *)

(** C1, refuted as stated: on the square the first retained facet has
    toporient true and the neighbour indices (-1, 1, -1) in the engine's
    order; the vertex reordering with columns 0 and 2 swapped would give
    (-1, 1, -1), the row written is (-1, -1, 1).  The neighbour in column 2
    is triangle 1, which contains the vertex of column 2, so it does not lie
    across the edge opposite that vertex. *)
Lemma neighbors_row_is_not_swapped_vertex_order :
  ∃ f,
    delaunay_impl (H := square_engine) good_host 4 square_x square_y true
      empty_qh
    = (Ret (Some (square_triangles, square_neighbors)), empty_qh, square_trace)
    ∧ retained square_qh !! 0 = Some f
    ∧ toporient f = true
    ∧ native_neighbours (H := square_engine) square_qh square_tri_indices f
      = Some [-1; 1; -1]%Z
    ∧ row square_neighbors 0 = (Some (-1), Some (-1), Some 1)%Z
    ∧ row square_neighbors 0 ≠
        (let '(n0, n1, n2) :=
           reorder_neighbors_as_specified (toporient f) (-1, 1, -1)%Z in
         (Some n0, Some n1, Some n2))
    ∧ entry square_triangles 0 2 = Some 0%Z
    ∧ entry square_neighbors 0 2 = Some 1%Z
    ∧ 0%Z ∈ triangle_vertices square_triangles 1.
Proof.
  eexists. split; [vm_compute; reflexivity|].
  split; [vm_compute; reflexivity|].
  split; [reflexivity|]. split; [vm_compute; reflexivity|].
  split; [vm_compute; reflexivity|]. split; [vm_compute; congruence|].
  split; [vm_compute; reflexivity|]. split; [vm_compute; reflexivity|].
  vm_compute. apply list_elem_of_here.
Qed.

Section Neighbours.
Context `{Qhull}.

(** C1, amended: for every retained facet, with (n0, n1, n2) the triangle
    indices of its three neighbours in the engine's order, the row of the
    neighbours matrix is (n2, n0, n1) when toporient is true and
    (n0, n2, n1) when it is false; the entry of column c is read from the
    same engine slot as the vertex of column (c + 2) mod 3 of the triangles
    matrix. *)
Theorem neighbors_row_follows_toporient h npoints x y hide qh0 tri nb qh' t :
  delaunay_impl h npoints x y hide qh0 = (Ret (Some (tri, nb)), qh', t) →
  ∃ qh1 diagnostics tri_indices,
    engine_run npoints x y qh0 = Some (0%Z, qh1, diagnostics) ∧
    let qh := qh_triangulate qh1 in
    emit_triangles qh (facet_list qh) 0 (replicate (facet_id qh) 0%Z)
      (uninitialised (length (retained qh) * 3)) 0
      = Some (tri_indices, data tri) ∧
    rows nb = length (retained qh) ∧
    ∀ i f, retained qh !! i = Some f →
      ∃ n0 n1 n2,
        native_neighbours qh tri_indices f = Some [n0; n1; n2] ∧
        row nb i =
          (if toporient f
           then (Some n2, Some n0, Some n1)
           else (Some n0, Some n2, Some n1)) ∧
        ∀ c, c < 3 →
          ∃ slot,
            entry nb i c = [n0; n1; n2] !! slot ∧
            entry tri i ((c + 2) mod 3) = native_vertices qh f !! slot.
Proof.
  intros Hrun.
  apply delaunay_impl_success in Hrun
    as (qh1 & diag & ti & Hengine & _ & _ & Hrows & Htri & Hnb).
  exists qh1, diag, ti. split; [done|]. split; [done|]. split; [done|].
  intros i f Hf.
  apply emit_triangles_buffer in Htri as (_ & _ & Htrow).
  apply emit_neighbors_buffer in Hnb as (_ & _ & Hnrow).
  destruct (Htrow i f Hf) as [_ Hvert].
  destruct (Hnrow i f Hf) as (vals & Hvals & Hlen & Hcells).
  destruct vals as [|n0 [|n1 [|n2 [|]]]]; try done.
  exists n0, n1, n2. split; [done|]. split.
  - unfold row. rewrite !entry_load, !Hcells by lia.
    by destruct (toporient f).
  - intros c Hc. exists (neighbor_slot (toporient f) c).
    rewrite !entry_load, Hcells by done.
    split; [done|].
    rewrite Hvert by (apply Nat.mod_upper_bound; lia).
    f_equal.
    destruct c as [|[|[|c]]]; [| | |lia]; by destruct (toporient f).
Qed.

End Neighbours.

Lemma neighbors_row_follows_toporient_witness :
  ∃ qh1 diagnostics tri_indices,
    engine_run (H := square_engine) 4 square_x square_y empty_qh
      = Some (0%Z, qh1, diagnostics) ∧
    let qh := qh_triangulate (Qhull := square_engine) qh1 in
    emit_triangles (H := square_engine) qh (facet_list qh) 0
      (replicate (facet_id qh) 0%Z)
      (uninitialised (length (retained qh) * 3)) 0
      = Some (tri_indices, data square_triangles) ∧
    rows square_neighbors = length (retained qh) ∧
    ∀ i f, retained qh !! i = Some f →
      ∃ n0 n1 n2,
        native_neighbours (H := square_engine) qh tri_indices f
          = Some [n0; n1; n2] ∧
        row square_neighbors i =
          (if toporient f
           then (Some n2, Some n0, Some n1)
           else (Some n0, Some n2, Some n1)) ∧
        ∀ c, c < 3 →
          ∃ slot,
            entry square_neighbors i c = [n0; n1; n2] !! slot ∧
            entry square_triangles i ((c + 2) mod 3)
              = native_vertices (H := square_engine) qh f !! slot.
Proof.
  apply (neighbors_row_follows_toporient (H := square_engine) good_host 4
           square_x square_y true empty_qh square_triangles square_neighbors
           empty_qh square_trace).
  vm_compute. reflexivity.
Defined.

Section Indices.
Context `{Qhull}.

Lemma lookup_replicate_zero n j (v : Z) :
  replicate n 0%Z !! j = Some v → v = 0%Z.
Proof. by intros [-> _]%lookup_replicate. Qed.

(** What [neighbour_index] reads for a pointer: the facet it points to,
    and -1 for an upper facet, the map's entry otherwise. *)
Lemma neighbour_index_Some qh tri_indices p v :
  neighbour_index qh tri_indices p = Some v →
  ∃ g, facet_heap qh !! p = Some g ∧
    (upperdelaunay g = true → v = (-1)%Z) ∧
    (upperdelaunay g = false → tri_indices !! id g = Some v).
Proof.
  unfold neighbour_index.
  destruct (facet_heap qh !! p) as [g|]; simpl; [|done].
  exists g. split; [done|].
  destruct (upperdelaunay g); split; congruence.
Qed.

(** C3: every entry of the neighbours matrix is -1 or a row index below
    ntri, the number of facets with upperdelaunay false, which is the
    number of rows of both matrices; a neighbour that is an upper facet is
    written as -1; and, the facet ids being distinct, a neighbour that is
    the k-th retained facet of the enumeration is written as k. *)
Theorem neighbors_entries_are_rows h npoints x y hide qh0 tri nb qh' t :
  delaunay_impl h npoints x y hide qh0 = (Ret (Some (tri, nb)), qh', t) →
  ∃ qh1 diagnostics,
    engine_run npoints x y qh0 = Some (0%Z, qh1, diagnostics) ∧
    let qh := qh_triangulate qh1 in
    let ntri := length (retained qh) in
    rows tri = ntri ∧ rows nb = ntri ∧
    (∀ i c, i < ntri → c < 3 →
       ∃ v, entry nb i c = Some v ∧
            (v = (-1)%Z ∨ (0 ≤ v < Z.of_nat ntri)%Z)) ∧
    (∀ i f c, retained qh !! i = Some f → c < 3 →
       ∃ p g,
         neighbors f !! neighbor_slot (toporient f) c = Some p ∧
         facet_heap qh !! p = Some g ∧
         (upperdelaunay g = true → entry nb i c = Some (-1)%Z) ∧
         (upperdelaunay g = false →
          NoDup (id <$> facets_of qh (facet_list qh)) →
          ∀ k, retained qh !! k = Some g →
               entry nb i c = Some (Z.of_nat k))).
Proof.
  intros Hrun.
  apply delaunay_impl_success in Hrun
    as (qh1 & diag & ti & Hengine & _ & Hrt & Hrn & Htri & Hnb).
  exists qh1, diag. split; [done|]. simpl.
  set (qh := qh_triangulate qh1) in *.
  split; [done|]. split; [done|].
  apply emit_neighbors_buffer in Hnb as (_ & _ & Hnrow).
  pose proof (emit_triangles_indices_range _ _ _ _ _ _ _ _ Htri)
    as [_ Hrange].
  assert (Hslot : ∀ i f c, retained qh !! i = Some f → c < 3 →
            ∃ p v, neighbors f !! neighbor_slot (toporient f) c = Some p ∧
                   neighbour_index qh ti p = Some v ∧
                   entry nb i c = Some v).
  { intros i f c Hf Hc.
    destruct (Hnrow i f Hf) as (vals & Hvals & Hlen & Hcells).
    assert (is_Some (vals !! neighbor_slot (toporient f) c)) as [v Hv].
    { apply lookup_lt_is_Some. rewrite Hlen.
      destruct c as [|[|[|c]]]; [| | |lia]; simpl;
        destruct (toporient f); lia. }
    apply mapM_Some in Hvals.
    destruct (Forall2_lookup_r _ _ _ _ _ Hvals Hv) as (p & Hp & Hpv).
    exists p, v. by rewrite entry_load, Hcells, Hv. }
  split.
  - intros i c Hi Hc.
    destruct (lookup_lt_is_Some_2 (retained qh) i Hi) as [f Hf].
    destruct (Hslot i f c Hf Hc) as (p & v & _ & Hpv & Hentry).
    exists v. split; [done|].
    apply neighbour_index_Some in Hpv as (g & _ & Hup & Hlow).
    destruct (upperdelaunay g); [left; by apply Hup|].
    unfold retained in *.
    destruct (Hrange _ _ (Hlow eq_refl)) as [Hinit|[?|?]]; [|by left|right; lia].
    apply lookup_replicate_zero in Hinit. right. lia.
  - intros i f c Hf Hc.
    destruct (Hslot i f c Hf Hc) as (p & v & Hp & Hpv & Hentry).
    apply neighbour_index_Some in Hpv as (g & Hg & Hup & Hlow).
    exists p, g. split; [done|]. split; [done|]. split.
    + intros Hg'. by rewrite Hentry, (Hup Hg').
    + intros Hg' Hnd k Hk.
      destruct (emit_triangles_indices_nodup _ _ _ _ _ _ _ _ Hnd Htri)
        as (_ & Hkept & _).
      specialize (Hkept k g Hk). rewrite (Hlow Hg') in Hkept.
      by rewrite Hentry, Hkept.
Qed.


End Indices.

Lemma neighbors_entries_are_rows_witness :
  ∃ qh1 diagnostics,
    engine_run (H := square_engine) 4 square_x square_y empty_qh
      = Some (0%Z, qh1, diagnostics) ∧
    let qh := qh_triangulate (Qhull := square_engine) qh1 in
    let ntri := length (retained qh) in
    rows square_triangles = ntri ∧ rows square_neighbors = ntri ∧
    (∀ i c, i < ntri → c < 3 →
       ∃ v, entry square_neighbors i c = Some v ∧
            (v = (-1)%Z ∨ (0 ≤ v < Z.of_nat ntri)%Z)) ∧
    (∀ i f c, retained qh !! i = Some f → c < 3 →
       ∃ p g,
         neighbors f !! neighbor_slot (toporient f) c = Some p ∧
         facet_heap qh !! p = Some g ∧
         (upperdelaunay g = true → entry square_neighbors i c = Some (-1)%Z) ∧
         (upperdelaunay g = false →
          NoDup (id <$> facets_of qh (facet_list qh)) →
          ∀ k, retained qh !! k = Some g →
               entry square_neighbors i c = Some (Z.of_nat k))).
Proof.
  apply (neighbors_entries_are_rows (H := square_engine) good_host 4
           square_x square_y true empty_qh square_triangles square_neighbors
           empty_qh square_trace).
  vm_compute. reflexivity.
Defined.


(** X6: the call returns the two matrices, and leaves the engine state to
    the cleanup, whenever it reaches the engine, the engine succeeds with a
    well-formed state (valid facet pointers, ids below [facet_id], three
    vertices and three neighbours for each retained facet) and the
    allocations are granted: none of its reads and writes is then out of
    bounds. *)
Lemma delaunay_impl_returns `{Qhull} h npoints x y hide qh0 qh1 diagnostics :
  reaches_engine h hide → allocates_all h →
  engine_run npoints x y qh0 = Some (0%Z, qh1, diagnostics) →
  well_formed (qh_triangulate qh1) →
  ∃ tri nb t,
    delaunay_impl h npoints x y hide qh0
    = (Ret (Some (tri, nb)),
       qh_freeqhull (qh_triangulate qh1) (negb qh_ALL), t).
Proof.
  intros [Hpoints Hnull] Halloc Hengine Hwf.
  destruct (translate_result_defined _ h Hwf Halloc) as (tri & nb & Htr).
  rewrite delaunay_impl_run, Hpoints, Hengine. simpl.
  unfold triangulate_outcome, guarded.
  rewrite ?bool_decide_false by (unfold qh_ERRnone; lia). simpl.
  rewrite Htr. destruct hide; [rewrite Hnull by done|]; by eexists _, _, _.
Qed.

(** * Errors, diagnostics and cleanup *)


(** The text of the error for "singular input data", the diagnostics
    shown and hidden. *)
Example engine_error_text_singular :
  engine_error_text "singular input data" 2 (verbose_hint false)
  = "Error in qhull Delaunay triangulation calculation: singular input data (exitcode=2)"
  ∧ engine_error_text "singular input data" 2 (verbose_hint true)
    = "Error in qhull Delaunay triangulation calculation: singular input data (exitcode=2); use python verbose option (-v) to see original qhull error.".
Proof. split; vm_compute; reflexivity. Qed.

Section EngineErrors.
Context `{Qhull}.


End EngineErrors.


(** ** The flag and the classification *)

(** C8, refuted as stated: on a host whose null device does not open, the
    engine failing with exit code 2, the call that shows the diagnostics
    (verbose 1) reports the engine error, and the call that hides them
    (verbose 0) ends with the exception "Could not open devnull" before the
    engine is asked. *)
Lemma flag_changes_classification_without_devnull :
  classification
    (delaunay (H := singular_engine) no_devnull_host square_x square_y 1
       empty_qh)
  = [EngineError "singular input data" 2]
  ∧ classification
      (delaunay (H := singular_engine) no_devnull_host square_x square_y 0
         empty_qh)
    = [CppException (runtime_error "Could not open devnull")].
Proof. split; vm_compute; reflexivity. Qed.

Section Flag.
Context `{Qhull}.

Lemma written_to_app f t1 t2 :
  written_to f (t1 ++ t2) = written_to f t1 ++ written_to f t2.
Proof. unfold written_to. apply omap_app. Qed.

Lemma classify_app (t1 t2 : list event) :
  omap classify (t1 ++ t2) = omap classify t1 ++ omap classify t2.
Proof. apply omap_app. Qed.

Lemma cleanup_events_quiet error_file qh :
  omap classify (cleanup_events error_file qh) = [] ∧
  ∀ f, written_to f (cleanup_events error_file qh) = [].
Proof.
  unfold cleanup_events. destruct (qh_memfreeshort _) as [curlong totlong].
  destruct (bool_decide (curlong ≠ 0%Z) || bool_decide (totlong ≠ 0%Z)),
           (bool_decide (error_file ≠ stderr)); by split.
Qed.

(** The two calls of [delaunay_impl], the errors hidden and shown, on a
    host whose null device opens. *)
Lemma delaunay_impl_flag h npoints x y qh0 :
  devnull_opens h = true →
  let hidden := delaunay_impl h npoints x y true qh0 in
  let shown := delaunay_impl h npoints x y false qh0 in
  hidden.1 = shown.1 ∧
  classification hidden = classification shown ∧
  written_to stderr hidden.2 = [] ∧
  written_to stderr shown.2 = written_to devnull hidden.2.
Proof.
  intros Hnull. simpl. rewrite !delaunay_impl_run, Hnull.
  destruct (points_allocate h); simpl; [|done].
  destruct (engine_run npoints x y qh0) as [[[exitcode qh1] diag]|]; [|done].
  unfold triangulate_outcome, guarded, classification.
  destruct (bool_decide (exitcode ≠ qh_ERRnone)).
  - destruct (qhull_error_msg_at exitcode) as [category|]; simpl; [|done].
    destruct (cleanup_events_quiet devnull qh1) as [Hc1 Hw1].
    destruct (cleanup_events_quiet stderr qh1) as [Hc2 Hw2].
    unfold omap in Hc1, Hc2. rewrite Hc1, Hc2, !Hw1, !Hw2. done.
  - destruct (translate_result h (qh_triangulate qh1)) as [r|e|]; simpl;
      try done;
      destruct (cleanup_events_quiet devnull (qh_triangulate qh1)) as [Hc1 Hw1];
      destruct (cleanup_events_quiet stderr (qh_triangulate qh1)) as [Hc2 Hw2];
      unfold omap in Hc1, Hc2; rewrite ?Hc1, ?Hc2, ?Hw1, ?Hw2; done.
Qed.

(** C8, amended: on a host whose null device opens, the returned value, the
    final engine state and the classification of a failure (the reason of
    an invalid input, the category and the exit code of an engine error,
    the exception) are the same for every two values of the verbose
    argument; with verbose 0 nothing reaches standard error, and otherwise
    standard error receives what the null device receives with verbose 0.
    (The hint appended to the engine error's text follows the flag.) *)
Theorem flag_keeps_classification h x y verbose1 verbose2 qh0 :
  devnull_opens h = true →
  (delaunay h x y verbose1 qh0).1 = (delaunay h x y verbose2 qh0).1 ∧
  classification (delaunay h x y verbose1 qh0)
    = classification (delaunay h x y verbose2 qh0) ∧
  written_to stderr (delaunay h x y 0 qh0).2 = [] ∧
  (verbose1 ≠ 0%Z →
   written_to stderr (delaunay h x y verbose1 qh0).2
     = written_to devnull (delaunay h x y 0 qh0).2).
Proof.
  intros Hnull.
  pose proof (delaunay_impl_flag h (length x) x y qh0 Hnull) as Hflag.
  simpl in Hflag. destruct Hflag as (Hres & Hclass & Hquiet & Htext).
  assert (Hany : ∀ hide,
    (delaunay_impl h (length x) x y hide qh0).1
      = (delaunay_impl h (length x) x y false qh0).1 ∧
    classification (delaunay_impl h (length x) x y hide qh0)
      = classification (delaunay_impl h (length x) x y false qh0)).
  { intros []; [by split|done]. }
  rewrite !delaunay_run.
  destruct (bool_decide (length x ≠ length y)); [done|].
  destruct (bool_decide (length x < 3)); [done|].
  destruct (at_least_3_unique_points (length x) x y) as [[]|];
    [|done|done].
  destruct (Hany (bool_decide (verbose1 = 0%Z))) as [-> ->].
  destruct (Hany (bool_decide (verbose2 = 0%Z))) as [-> ->].
  rewrite bool_decide_true by done.
  split; [done|]. split; [done|]. split; [done|].
  intros Hv. by rewrite bool_decide_false.
Qed.

End Flag.

Lemma flag_keeps_classification_witness :
  (delaunay (H := singular_engine) good_host square_x square_y 0 empty_qh).1
    = (delaunay (H := singular_engine) good_host square_x square_y 1
         empty_qh).1 ∧
  classification
    (delaunay (H := singular_engine) good_host square_x square_y 0 empty_qh)
    = classification
        (delaunay (H := singular_engine) good_host square_x square_y 1
           empty_qh) ∧
  written_to stderr
    (delaunay (H := singular_engine) good_host square_x square_y 0
       empty_qh).2 = [] ∧
  (0%Z ≠ 0%Z →
   written_to stderr
     (delaunay (H := singular_engine) good_host square_x square_y 0
        empty_qh).2
     = written_to devnull
         (delaunay (H := singular_engine) good_host square_x square_y 0
            empty_qh).2).
Proof.
  apply (flag_keeps_classification (H := singular_engine) good_host square_x
           square_y 0%Z 1%Z empty_qh).
  reflexivity.
Defined.

(** ** The guard *)

Section Guard.
Context `{Qhull}.

Lemma memory_after_app t1 t2 :
  memory_after (t1 ++ t2) = foldl memory_step (memory_after t1) t2.
Proof. apply foldl_app. Qed.

(** The events of the engine call and of the passes leave the engine's
    memory allocated, open no stream and warn of nothing. *)
Lemma triangulate_outcome_trace h error_file hide answer :
  let t := (triangulate_outcome h error_file hide answer).2 in
  (∀ s, foldl memory_step s t = Allocated) ∧
  (∀ fs, foldl file_step fs t = fs) ∧
  residual_warning ∉ t.
Proof.
  destruct answer as [[exitcode qh1] diag]. unfold triangulate_outcome.
  assert (Hnot : ∀ l : list event,
            Forall (λ e, e ≠ residual_warning) l → residual_warning ∉ l).
  { intros l Hl Hin. rewrite Forall_forall in Hl. by apply (Hl _ Hin). }
  destruct (bool_decide (exitcode ≠ qh_ERRnone));
    [destruct (qhull_error_msg_at exitcode)|];
    simpl; (split; [done|]); (split; [done|]);
    apply Hnot; repeat constructor; done.
Qed.

Lemma cleanup_events_memory error_file qh :
  foldl memory_step Allocated (cleanup_events error_file qh) = Released.
Proof.
  unfold cleanup_events. destruct (qh_memfreeshort _) as [curlong totlong].
  by destruct (bool_decide (curlong ≠ 0%Z) || bool_decide (totlong ≠ 0%Z)),
              (bool_decide (error_file ≠ stderr)).
Qed.

Lemma cleanup_events_warning error_file qh :
  residual_warning ∈ cleanup_events error_file qh
  ↔ residual (qh_freeqhull qh (negb qh_ALL)).
Proof.
  unfold cleanup_events, residual.
  destruct (qh_memfreeshort _) as [curlong totlong]. simpl.
  assert (Hnot : ∀ l : list event,
            Forall (λ e, e ≠ residual_warning) l → residual_warning ∉ l).
  { intros l Hl Hin. rewrite Forall_forall in Hl. by apply (Hl _ Hin). }
  destruct (bool_decide (curlong ≠ 0%Z) || bool_decide (totlong ≠ 0%Z)) eqn:Hr.
  - split.
    + intros _. apply orb_true_iff in Hr as [Hr|Hr];
        apply bool_decide_eq_true in Hr; tauto.
    + intros _. do 2 apply list_elem_of_further. apply list_elem_of_here.
  - apply orb_false_iff in Hr as [Hr1 Hr2].
    apply bool_decide_eq_false in Hr1, Hr2. split; [|tauto].
    intros Hin. exfalso. revert Hin. apply Hnot.
    destruct (bool_decide (error_file ≠ stderr)); repeat constructor; done.
Qed.

Lemma cleanup_events_files error_file qh fs :
  foldl file_step fs (cleanup_events error_file qh)
  = if bool_decide (error_file ≠ stderr)
    then filter (λ f', f' ≠ error_file) fs else fs.
Proof.
  unfold cleanup_events. destruct (qh_memfreeshort _) as [curlong totlong].
  by destruct (bool_decide (curlong ≠ 0%Z) || bool_decide (totlong ≠ 0%Z)),
              (bool_decide (error_file ≠ stderr)).
Qed.

(** What the guard adds to the engine call and the passes. *)
Lemma guarded_triangulate h error_file hide answer r qh' t :
  guarded error_file (triangulate_outcome h error_file hide answer)
    = (r, qh', t) →
  r ≠ Undef →
  (∀ s, foldl memory_step s t = Released) ∧
  (∀ fs, foldl file_step fs t
         = if bool_decide (error_file ≠ stderr)
           then filter (λ f', f' ≠ error_file) fs else fs) ∧
  (residual_warning ∈ t ↔ residual qh') ∧
  (guarded (H := without_residual H) error_file
     (triangulate_outcome (H := without_residual H) h error_file hide
        answer)).1 = (r, qh').
Proof.
  destruct (triangulate_outcome_trace h error_file hide answer)
    as (Hmem & Hfiles & Hwarn).
  change (triangulate_outcome (H := without_residual H) h error_file hide
            answer)
    with (triangulate_outcome h error_file hide answer).
  unfold guarded.
  destruct (triangulate_outcome h error_file hide answer) as [[r0 q0] t0].
  simpl in Hmem, Hfiles, Hwarn.
  destruct r0 as [a|e|]; intros [= <- <- <-] Hr; try done.
  all: split; [intros s; by rewrite foldl_app, Hmem, cleanup_events_memory|].
  all: split; [intros fs; by rewrite foldl_app, Hfiles, cleanup_events_files|].
  all: split; [|done].
  all: rewrite elem_of_app, cleanup_events_warning; tauto.
Qed.

(** C9: on every exit path of [delaunay_impl] with a defined outcome, the
    engine's memory is either never touched (the call ends with an
    exception before the guard exists) or released by the guard's
    destructor, and no stream stays open; memory that the cleanup cannot
    free adds a warning to the trace, exactly then, and the outcome is the
    one of the engine without such memory. *)
Theorem engine_memory_is_released h npoints x y hide qh0 r qh' t :
  delaunay_impl h npoints x y hide qh0 = (r, qh', t) →
  r ≠ Undef →
  (memory_after t = Untouched ∨ memory_after t = Released) ∧
  (memory_after t = Untouched → ∃ e, r = Throw e ∧ qh' = qh0) ∧
  open_files t = [] ∧
  (residual_warning ∈ t ↔ memory_after t = Released ∧ residual qh') ∧
  (delaunay_impl (H := without_residual H) h npoints x y hide qh0).1
    = (r, qh').
Proof.
  rewrite (delaunay_impl_run (H := without_residual H)).
  change (engine_run (H := without_residual H) npoints x y qh0)
    with (engine_run npoints x y qh0).
  rewrite delaunay_impl_run.
  assert (Hnil : residual_warning ∉ @nil event) by apply not_elem_of_nil.
  destruct (points_allocate h); simpl.
  2:{ intros [= <- <- <-] _. split; [by left|]. split; [by eexists|].
      split; [done|]. split; [|done]. split; [done|]. by intros [[=] _]. }
  destruct (engine_run npoints x y qh0) as [answer|].
  2:{ by intros [= <- <- <-]. }
  destruct hide.
  - destruct (devnull_opens h).
    2:{ intros [= <- <- <-] _. split; [by left|]. split; [by eexists|].
        split; [done|]. split; [|done]. split.
        - intros Hin. apply list_elem_of_singleton in Hin. done.
        - by intros [[=] _]. }
    destruct (guarded devnull _) as [[r0 q0] t0] eqn:Hg.
    intros [= <- <- <-] Hr.
    destruct (guarded_triangulate _ _ _ _ _ _ _ Hg Hr)
      as (Hmem & Hfiles & Hwarn & Hquiet).
    assert (Hm : memory_after (Fopen devnull true :: t0) = Released)
      by apply Hmem.
    split; [by right|]. split; [by rewrite Hm|]. split.
    { unfold open_files. simpl. by rewrite Hfiles. }
    split.
    { rewrite elem_of_cons, Hwarn. split; [|tauto].
      intros [[=]|?]. tauto. }
    destruct (guarded (H := without_residual H) devnull _) as [[r1 q1] t1].
    simpl in Hquiet. by injection Hquiet as -> ->.
  - intros Hg Hr.
    destruct (guarded_triangulate _ _ _ _ _ _ _ Hg Hr)
      as (Hmem & Hfiles & Hwarn & Hquiet).
    assert (Hm : memory_after t = Released) by apply Hmem.
    split; [by right|]. split; [by rewrite Hm|]. split.
    { unfold open_files. by rewrite Hfiles. }
    split; [|done]. rewrite Hwarn. tauto.
Qed.

End Guard.

Lemma engine_memory_is_released_witness :
  (memory_after leaky_trace = Untouched ∨ memory_after leaky_trace = Released) ∧
  (memory_after leaky_trace = Untouched →
   ∃ e, Ret (Some (square_triangles, square_neighbors)) = Throw e ∧
        empty_qh = empty_qh) ∧
  open_files leaky_trace = [] ∧
  (residual_warning ∈ leaky_trace ↔
   memory_after leaky_trace = Released ∧ residual (H := leaky_engine) empty_qh) ∧
  (delaunay_impl (H := without_residual leaky_engine) good_host 4 square_x
     square_y true empty_qh).1
    = (Ret (Some (square_triangles, square_neighbors)), empty_qh).
Proof.
  apply (engine_memory_is_released (H := leaky_engine) good_host 4 square_x
           square_y true empty_qh
           (Ret (Some (square_triangles, square_neighbors))) empty_qh
           leaky_trace).
  - vm_compute. reflexivity.
  - discriminate.
Defined.

(** * The validation *)

Section Validation.
Context `{Qhull}.



(** C10: a point with a NaN coordinate differs from every point, itself
    included; so on arrays of equal length at least 3, a point at an index
    i >= 1 with a NaN coordinate makes the validation pass as soon as
    another such point follows it or a point before it (and after the
    first) differs from the first; three copies of (NaN, NaN) pass, none
    of which is distinct from another as a value. *)
Theorem nan_points_count_as_unique :
  (∀ p q, has_nan p = true → differ p q = true ∧ differ q p = true) ∧
  (∀ x y i p_i,
     length x = length y → 1 ≤ i →
     point_at x y i = Some p_i → has_nan p_i = true →
     (∃ j p_j, i < j ∧ point_at x y j = Some p_j ∧ has_nan p_j = true) ∨
     (∃ u p_u p_0, 1 ≤ u ∧ u < i ∧ point_at x y u = Some p_u ∧
                   point_at x y 0 = Some p_0 ∧ differ p_u p_0 = true) →
     at_least_3_unique_points (length x) x y = Some true ∧
     ∀ h verbose qh0,
       delaunay h x y verbose qh0
       = delaunay_impl h (length x) x y (bool_decide (verbose = 0%Z)) qh0) ∧
  (let nans := [Double.nan; Double.nan; Double.nan] in
   at_least_3_unique_points 3 nans nans = Some true ∧
   point_at nans nans 0 = point_at nans nans 1 ∧
   point_at nans nans 1 = point_at nans nans 2).
Proof.
  split; [|split].
  - intros p q Hp. split; [by apply differ_nan_l|by apply differ_nan_r].
  - intros x y i p_i Hlen Hi Hpi Hnan Hother.
    assert (three_unique x y) as H3.
    { destruct (point_at_Some x y 0) as [p_0 Hp0].
      { apply point_at_lt in Hpi. lia. }
      { apply point_at_lt in Hpi. lia. }
      destruct Hother as [(j & p_j & Hij & Hpj & Hnanj)
                         |(u & p_u & p_0' & Hu & Hui & Hpu & Hp0' & Hd)].
      - exists 0, i, j, p_0, p_i, p_j.
        repeat split; try done; try lia;
          auto using differ_nan_l, differ_nan_r.
      - rewrite Hp0 in Hp0'. injection Hp0' as <-.
        exists 0, u, i, p_0, p_u, p_i.
        repeat split; try done; try lia;
          auto using differ_nan_r. by rewrite differ_sym. }
    destruct (at_least_3_unique_points_spec x y Hlen) as (b & Hb & Hiff).
    assert (b = true) as -> by tauto.
    split; [done|]. intros h verbose qh0. rewrite delaunay_run, Hb.
    assert (3 ≤ length x).
    { destruct H3 as (i' & j' & k' & ? & ? & r & ? & ? & _ & _ & Hr & _).
      apply point_at_lt in Hr. lia. }
    rewrite bool_decide_false by (intros ?; lia).
    by rewrite bool_decide_false by lia.
  - by vm_compute.
Qed.

End Validation.

(** The three rejections and an acceptance: two points; three points of
    unequal array lengths; four copies of one point; the triangle. *)
Example validation_examples :
  delaunay (H := triangle_engine) good_host (Double.of_Z <$> [0; 1]%Z)
    (Double.of_Z <$> [0; 1]%Z) 0 empty_qh
  = rejected empty_qh too_few_points
  ∧ delaunay (H := triangle_engine) good_host triangle_x
      (Double.of_Z <$> [0; 1]%Z) 0 empty_qh
    = rejected empty_qh mismatched_lengths
  ∧ delaunay (H := triangle_engine) good_host (Double.of_Z <$> [1; 1; 1; 1]%Z)
      (Double.of_Z <$> [2; 2; 2; 2]%Z) 0 empty_qh
    = rejected empty_qh not_enough_unique_points
  ∧ (delaunay (H := triangle_engine) good_host triangle_x triangle_y 0
       empty_qh).1.1
    = Ret (Some ({| rows := 1; data := Some <$> [2; 1; 0]%Z |},
                 {| rows := 1; data := Some <$> [-1; -1; -1]%Z |})).
Proof. repeat split; vm_compute; reflexivity. Qed.

(** * Translation of the input *)


Section Translation.
Context `{Qhull}.


End Translation.


(** * Further properties of the validator *)

Section ValidatorBounds.
Variables x y : list double.

Lemma point_at_take n i :
  i < n → point_at (take n x) (take n y) i = point_at x y i.
Proof. intros Hi. unfold point_at. by rewrite !lookup_take_lt. Qed.

Lemma unique_scan_take n fuel i unique2 :
  unique2 ≤ i → i + fuel ≤ n →
  unique_scan (take n x) (take n y) fuel i unique2
  = unique_scan x y fuel i unique2.
Proof.
  revert i unique2. induction fuel as [|fuel IH]; intros i u Hu Hn; [done|].
  simpl. rewrite !point_at_take by (unfold unique1; lia).
  destruct (point_at x y i) as [p|]; [|done].
  destruct (point_at x y unique1) as [p1|]; [|done]. simpl.
  destruct (decide (u = 0)).
  - destruct (differ p p1); apply IH; lia.
  - destruct (point_at x y u) as [p2|]; [|done]. simpl.
    destruct (differ p p1 && differ p p2); [done|]. apply IH; lia.
Qed.

(** X1: on arrays that hold at least npoints elements the validator reads
    inside the arrays only, and its answer is the one for the first npoints
    elements: what follows them is never looked at. *)
Theorem validator_reads_first_npoints npoints :
  npoints ≤ length x → npoints ≤ length y →
  is_Some (at_least_3_unique_points npoints x y) ∧
  at_least_3_unique_points npoints x y
  = at_least_3_unique_points npoints (take npoints x) (take npoints y).
Proof.
  intros Hx Hy. unfold at_least_3_unique_points.
  destruct (decide (npoints < 3)); [by split; [eexists|]|].
  split.
  - apply unique_scan_defined; lia.
  - symmetry. apply unique_scan_take; lia.
Qed.

End ValidatorBounds.

Lemma validator_reads_first_npoints_witness :
  is_Some (at_least_3_unique_points 3 square_x square_y) ∧
  at_least_3_unique_points 3 square_x square_y
  = at_least_3_unique_points 3 (take 3 square_x) (take 3 square_y).
Proof.
  apply (validator_reads_first_npoints square_x square_y 3);
    vm_compute; lia.
Defined.

(** ** The answer and the point set *)

Lemma three_unique_length x y : three_unique x y → 3 ≤ length x.
Proof.
  intros (i & j & k & p & q & r & ? & ? & _ & _ & Hr & _).
  apply point_at_lt in Hr. lia.
Qed.

(** The answer of the validator on arrays of equal length, as a
    proposition. *)
Lemma validator_true_iff x y :
  length x = length y →
  at_least_3_unique_points (length x) x y = Some true ↔ three_unique x y.
Proof.
  intros Hlen.
  destruct (at_least_3_unique_points_spec x y Hlen) as (b & -> & Hb).
  rewrite <- Hb. split; congruence.
Qed.

Lemma validator_eq x y x' y' :
  length x = length y → length x' = length y' →
  (three_unique x y ↔ three_unique x' y') →
  at_least_3_unique_points (length x) x y
  = at_least_3_unique_points (length x') x' y'.
Proof.
  intros Hlen Hlen' Hiff.
  destruct (at_least_3_unique_points_spec x y Hlen) as (b & -> & Hb).
  destruct (at_least_3_unique_points_spec x' y' Hlen') as (b' & -> & Hb').
  f_equal. apply eq_true_iff_eq. unfold is_true in *. tauto.
Qed.

(** X2: a point set that the validator accepts stays accepted when points
    are appended to it. *)
Theorem validator_accepts_extension x y x' y' :
  length x = length y → length x' = length y' →
  at_least_3_unique_points (length x) x y = Some true →
  at_least_3_unique_points (length (x ++ x')) (x ++ x') (y ++ y') = Some true.
Proof.
  intros Hlen Hlen' Hacc.
  apply validator_true_iff in Hacc; [|done].
  apply validator_true_iff; [rewrite !length_app; lia|].
  destruct Hacc
    as (i & j & k & p & q & r & Hij & Hjk & Hp & Hq & Hr & Hd).
  assert (Hlift : ∀ m pm, point_at x y m = Some pm →
            point_at (x ++ x') (y ++ y') m = Some pm).
  { intros m pm Hm. pose proof (point_at_lt _ _ _ _ Hm) as Hlt.
    unfold point_at in *. rewrite !lookup_app_l by lia. done. }
  exists i, j, k, p, q, r. repeat split; auto; tauto.
Qed.

Lemma validator_accepts_extension_witness :
  at_least_3_unique_points (length (triangle_x ++ [Double.nan]))
    (triangle_x ++ [Double.nan]) (triangle_y ++ [Double.zero]) = Some true.
Proof.
  apply (validator_accepts_extension triangle_x triangle_y [Double.nan]
           [Double.zero]); reflexivity.
Defined.

(** Three positions in any order are three positions in increasing
    order. *)
Lemma three_unique_unordered_iff x y :
  three_unique_unordered x y ↔ three_unique x y.
Proof.
  split.
  - intros (i & j & k & p & q & r & Hij & Hik & Hjk & Hp & Hq & Hr
            & Hpq & Hpr & Hqr).
    assert (Hqp : differ q p = true) by (by rewrite differ_sym).
    assert (Hrp : differ r p = true) by (by rewrite differ_sym).
    assert (Hrq : differ r q = true) by (by rewrite differ_sym).
    destruct (Nat.lt_total i j) as [?|[?|?]]; [|done|];
      destruct (Nat.lt_total i k) as [?|[?|?]]; try done;
      destruct (Nat.lt_total j k) as [?|[?|?]]; try done; try lia.
    + exists i, j, k, p, q, r. by repeat split.
    + exists i, k, j, p, r, q. by repeat split.
    + exists k, i, j, r, p, q. by repeat split.
    + exists j, i, k, q, p, r. by repeat split.
    + exists j, k, i, q, r, p. by repeat split.
    + exists k, j, i, r, q, p. by repeat split.
  - intros (i & j & k & p & q & r & Hij & Hjk & Hrest).
    exists i, j, k, p, q, r. repeat split; try lia; tauto.
Qed.

Lemma point_at_pairs (ps : list (double * double)) i :
  point_at ps.*1 ps.*2 i = ps !! i.
Proof.
  unfold point_at. rewrite !list_lookup_fmap.
  by destruct (ps !! i) as [[]|].
Qed.

(** X3: the answer of the validator does not depend on the order of the
    points, although the scan compares every point with the first. *)
Theorem validator_ignores_order (ps qs : list (double * double)) :
  ps ≡ₚ qs →
  at_least_3_unique_points (length ps) ps.*1 ps.*2
  = at_least_3_unique_points (length qs) qs.*1 qs.*2.
Proof.
  intros Hperm.
  assert (Hone : ∀ ps qs : list (double * double), ps ≡ₚ qs →
            three_unique ps.*1 ps.*2 → three_unique qs.*1 qs.*2).
  { clear. intros ps qs Hperm H3.
    apply Permutation_inj in Hperm as (_ & f & Hinj & Hf).
    apply three_unique_unordered_iff.
    destruct H3 as (i & j & k & p & q & r & Hij & Hjk & Hp & Hq & Hr & Hd).
    rewrite point_at_pairs, Hf in Hp, Hq, Hr.
    exists (f i), (f j), (f k), p, q, r.
    rewrite !point_at_pairs.
    repeat split; try tauto; intros Heq; apply Hinj in Heq; lia. }
  pose proof (length_fmap fst ps). pose proof (length_fmap snd ps).
  pose proof (length_fmap fst qs). pose proof (length_fmap snd qs).
  replace (length ps) with (length ps.*1) by done.
  replace (length qs) with (length qs.*1) by done.
  apply validator_eq; [congruence..|].
  split; apply Hone; [done|by symmetry].
Qed.

Lemma validator_ignores_order_witness :
  at_least_3_unique_points 3
    [Double.zero; one; Double.zero] [Double.zero; Double.zero; one]
  = at_least_3_unique_points 3
      [one; Double.zero; Double.zero] [Double.zero; Double.zero; one].
Proof.
  apply (validator_ignores_order
           [(Double.zero, Double.zero); (one, Double.zero); (Double.zero, one)]
           [(one, Double.zero); (Double.zero, Double.zero); (Double.zero, one)]).
  apply perm_swap.
Defined.

(** ** Equal values *)

Lemma equal_value_sym a b : equal_value a b → equal_value b a.
Proof.
  intros [Hs|[? ?]]; [left; by apply DoubleFacts.same_sym|by right].
Qed.

Lemma same_not_nan a b : Double.same a b → Double.is_nan a = false.
Proof. by destruct a, b. Qed.

Lemma neb_equal_value a a' b b' :
  equal_value a a' → equal_value b b' → Double.neb a b = Double.neb a' b'.
Proof.
  intros [Ha|[Ha Ha']].
  2:{ intros _. by rewrite !DoubleFacts.neb_nan_l. }
  intros [Hb|[Hb Hb']].
  2:{ by rewrite !DoubleFacts.neb_nan_r. }
  unfold Double.neb. f_equal.
  fold (Double.eqb a b) (Double.eqb a' b').
  apply eq_true_iff_eq. rewrite !DoubleFacts.eqb_same. split; intros Hab.
  - eapply DoubleFacts.same_trans; [by apply DoubleFacts.same_sym|].
    by eapply DoubleFacts.same_trans.
  - eapply DoubleFacts.same_trans; [done|].
    eapply DoubleFacts.same_trans; [done|]. by apply DoubleFacts.same_sym.
Qed.

Lemma three_unique_equal_value x y x' y' :
  Forall2 equal_value x x' → Forall2 equal_value y y' →
  three_unique x y → three_unique x' y'.
Proof.
  intros Hx Hy (i & j & k & p & q & r & Hij & Hjk & Hp & Hq & Hr
                & Hpq & Hpr & Hqr).
  assert (Hpt : ∀ m pm, point_at x y m = Some pm →
            ∃ pm', point_at x' y' m = Some pm' ∧
                   equal_value pm.1 pm'.1 ∧ equal_value pm.2 pm'.2).
  { intros m pm. unfold point_at.
    destruct (x !! m) as [xm|] eqn:Hxm; [|done].
    destruct (y !! m) as [ym|] eqn:Hym; [|done]. simpl. intros [= <-].
    destruct (Forall2_lookup_l _ _ _ _ _ Hx Hxm) as (xm' & -> & ?).
    destruct (Forall2_lookup_l _ _ _ _ _ Hy Hym) as (ym' & -> & ?).
    by exists (xm', ym'). }
  destruct (Hpt _ _ Hp) as (p' & Hp' & Hp1 & Hp2).
  destruct (Hpt _ _ Hq) as (q' & Hq' & Hq1 & Hq2).
  destruct (Hpt _ _ Hr) as (r' & Hr' & Hr1 & Hr2).
  exists i, j, k, p', q', r'. unfold differ in *.
  rewrite <- (neb_equal_value _ _ _ _ Hp1 Hq1),
          <- (neb_equal_value _ _ _ _ Hp2 Hq2),
          <- (neb_equal_value _ _ _ _ Hp1 Hr1),
          <- (neb_equal_value _ _ _ _ Hp2 Hr2),
          <- (neb_equal_value _ _ _ _ Hq1 Hr1),
          <- (neb_equal_value _ _ _ _ Hq2 Hr2).
  by repeat split.
Qed.

(** X4: the validator tells points apart by value: replacing coordinates
    by coordinates of equal value (a zero by the zero of the other sign, a
    NaN by a NaN) does not change its answer. *)
Theorem validator_compares_values x y x' y' :
  length x = length y →
  Forall2 equal_value x x' → Forall2 equal_value y y' →
  at_least_3_unique_points (length x') x' y'
  = at_least_3_unique_points (length x) x y.
Proof.
  intros Hlen Hx Hy.
  pose proof (Forall2_length _ _ _ Hx). pose proof (Forall2_length _ _ _ Hy).
  apply validator_eq; [congruence|done|].
  split; apply three_unique_equal_value;
    try done; (eapply Forall2_flip, Forall2_impl; [eassumption|]);
    intros ? ?; apply equal_value_sym.
Qed.

Lemma validator_compares_values_witness :
  at_least_3_unique_points
    (length [negative_zero; negative_zero; one])
    [negative_zero; negative_zero; one] [Double.zero; negative_zero; one]
  = at_least_3_unique_points (length [Double.zero; Double.zero; one])
      [Double.zero; Double.zero; one] [Double.zero; Double.zero; one].
Proof.
  apply (validator_compares_values [Double.zero; Double.zero; one]
           [Double.zero; Double.zero; one]
           [negative_zero; negative_zero; one]
           [Double.zero; negative_zero; one]).
  - reflexivity.
  - repeat constructor; vm_compute; auto.
  - repeat constructor; vm_compute; auto.
Defined.

(** * The coordinate conditioner *)

Lemma sum_coordinates_spec x y fuel i x_mean y_mean :
  i + fuel ≤ length x → i + fuel ≤ length y →
  sum_coordinates x y fuel i x_mean y_mean
  = Some (foldl Double.add x_mean (take fuel (drop i x)),
          foldl Double.add y_mean (take fuel (drop i y))).
Proof.
  revert i x_mean y_mean.
  induction fuel as [|fuel IH]; intros i xm ym Hx Hy; [done|].
  destruct (lookup_lt_is_Some_2 x i) as [xi Hxi]; [lia|].
  destruct (lookup_lt_is_Some_2 y i) as [yi Hyi]; [lia|].
  cbn [sum_coordinates]. rewrite Hxi, Hyi. simpl.
  rewrite IH by lia.
  by rewrite (drop_S x xi i Hxi), (drop_S y yi i Hyi).
Qed.

Lemma prepare_points_spec x y x_mean y_mean fuel :
  ∀ i points,
    i + fuel ≤ length x → i + fuel ≤ length y →
    2 * (i + fuel) ≤ length points →
    ∃ points',
      prepare_points x y x_mean y_mean fuel i points = Some points' ∧
      length points' = length points ∧
      (∀ k, k < 2 * i → points' !! k = points !! k) ∧
      (∀ j xj yj, i ≤ j → j < i + fuel →
         x !! j = Some xj → y !! j = Some yj →
         points' !! (2 * j) = Some (Double.sub xj x_mean) ∧
         points' !! (2 * j + 1) = Some (Double.sub yj y_mean)).
Proof.
  induction fuel as [|fuel IH]; intros i points Hx Hy Hp.
  { exists points. split; [done|]. split; [done|]. split; [done|].
    intros j xj yj ? ?. lia. }
  destruct (lookup_lt_is_Some_2 x i) as [xi Hxi]; [lia|].
  destruct (lookup_lt_is_Some_2 y i) as [yi Hyi]; [lia|].
  cbn [prepare_points]. rewrite Hxi, Hyi. cbn [mbind option_bind].
  rewrite vstore_defined by lia. cbn [mbind option_bind].
  rewrite vstore_defined by (rewrite length_insert; lia).
  cbn [mbind option_bind].
  destruct (IH (S i)
              (<[2 * i + 1 := Double.sub yi y_mean]>
                 (<[2 * i := Double.sub xi x_mean]> points)))
    as (points' & Hrun & Hlen & Hframe & Hrows);
    [lia|lia|rewrite !length_insert; lia|].
  exists points'. split; [done|].
  rewrite !length_insert in Hlen. split; [done|]. split.
  - intros k Hk. rewrite Hframe by lia.
    by rewrite !list_lookup_insert_ne by lia.
  - intros j xj yj Hij Hj Hxj Hyj.
    destruct (decide (j = i)) as [->|Hne]; [|apply Hrows; by try lia].
    rewrite Hxi in Hxj. rewrite Hyi in Hyj.
    injection Hxj as <-. injection Hyj as <-.
    rewrite !Hframe by lia. split.
    + rewrite list_lookup_insert_ne by lia.
      by rewrite list_lookup_insert_eq by lia.
    + by rewrite list_lookup_insert_eq by (rewrite length_insert; lia).
Qed.

(** X5: on arrays of equal length the conditioner hands the engine twice
    as many coordinates as there are points, the point i at the positions
    2i and 2i+1, each coordinate less the mean of its array, the mean being
    the sum from the left divided by the number of points. *)
Theorem conditioner_centres_points x y :
  length x = length y →
  ∃ points,
    conditioned x y = Some points ∧
    length points = 2 * length x ∧
    ∀ i xi yi, x !! i = Some xi → y !! i = Some yi →
      points !! (2 * i) = Some (Double.sub xi (mean x)) ∧
      points !! (2 * i + 1) = Some (Double.sub yi (mean y)).
Proof.
  intros Hlen. unfold conditioned, centred_points.
  rewrite sum_coordinates_spec by lia. cbn [mbind option_bind].
  assert (Hmx : Double.div
                  (foldl Double.add Double.zero (take (length x) (drop 0 x)))
                  (Double.of_Z (Z.of_nat (length x))) = mean x)
    by (by rewrite drop_0, firstn_all).
  assert (Hmy : Double.div
                  (foldl Double.add Double.zero (take (length x) (drop 0 y)))
                  (Double.of_Z (Z.of_nat (length x))) = mean y)
    by (by rewrite drop_0, Hlen, firstn_all).
  rewrite Hmx, Hmy.
  destruct (prepare_points_spec x y (mean x) (mean y) (length x) 0
              (replicate (length x * ndim) Double.zero))
    as (points & Hrun & Hl & _ & Hrows);
    [lia|lia|rewrite length_replicate; unfold ndim; lia|].
  exists points. split; [done|]. split.
  - rewrite Hl, length_replicate. unfold ndim. lia.
  - intros i xi yi Hxi Hyi. apply Hrows; try done; [lia|].
    apply lookup_lt_Some in Hxi. lia.
Qed.

Lemma conditioner_centres_points_witness :
  ∃ points,
    conditioned square_x square_y = Some points ∧
    length points = 2 * length square_x ∧
    ∀ i xi yi, square_x !! i = Some xi → square_y !! i = Some yi →
      points !! (2 * i) = Some (Double.sub xi (mean square_x)) ∧
      points !! (2 * i + 1) = Some (Double.sub yi (mean square_y)).
Proof.
  apply (conditioner_centres_points square_x square_y). reflexivity.
Defined.

(** * Further properties of the translator *)

Lemma square_well_formed : well_formed square_qh.
Proof.
  intros p Hp.
  assert (Hnb : ∀ (l : list nat) (P : nat → Prop),
            Forall P l → ∀ q, q ∈ l → P q)
    by (intros l P Hl; by apply Forall_forall).
  repeat (apply elem_of_cons in Hp as [->|Hp]);
    [| | | |by apply elem_of_nil in Hp];
    eexists; (split; [reflexivity|]); (split; [simpl; lia|]);
    intros Hup; try discriminate Hup;
    (split; [reflexivity|]); (split; [reflexivity|]);
    apply Hnb; repeat constructor;
    eexists; (split; [reflexivity|]); simpl; intros; lia.
Qed.

Lemma delaunay_impl_returns_witness :
  ∃ tri nb t,
    delaunay_impl (H := square_engine) good_host 4 square_x square_y true
      empty_qh
    = (Ret (Some (tri, nb)),
       qh_freeqhull (Qhull := square_engine)
         (qh_triangulate (Qhull := square_engine) square_qh) (negb qh_ALL), t).
Proof.
  apply (delaunay_impl_returns (H := square_engine) good_host 4 square_x
           square_y true empty_qh square_qh "").
  - split; reflexivity.
  - repeat split.
  - vm_compute. reflexivity.
  - exact square_well_formed.
Defined.

Section Undefined.
Context `{Qhull}.
Variable qh : qhT.

(** The vertex pass has no defined outcome when the list holds a retained
    facet whose vertices are not three. *)
Lemma emit_triangles_undefined facets p f :
  p ∈ facets → facet_heap qh !! p = Some f →
  upperdelaunay f = false → length (vertices f) ≠ 3 →
  ∀ i tri_indices triangles ptr,
    emit_triangles qh facets i tri_indices triangles ptr = None.
Proof.
  intros Hp Hf Hup Hlen.
  induction facets as [|p' facets IH]; [by apply elem_of_nil in Hp|].
  intros i ti buf ptr. simpl.
  destruct (facet_heap qh !! p') as [f'|] eqn:Hf'; [|done]. simpl.
  apply elem_of_cons in Hp as [<-|Hp].
  - rewrite Hf in Hf'. injection Hf' as <-. rewrite Hup. simpl.
    destruct (vstore ti (id f) (Z.of_nat i)); [|done]. simpl.
    destruct (get_facet_vertices qh f (uninitialised 3)) as [ind|] eqn:Hw;
      [|done]. simpl.
    destruct (load ind 0) as [i0|] eqn:H0; [|done]. simpl.
    destruct (load ind 1) as [i1|] eqn:H1; [|done]. simpl.
    destruct (load ind 2) as [i2|] eqn:H2; [|done]. simpl.
    exfalso. apply Hlen.
    pose proof (write_all_3 _ _ _ _ _ Hw H0 H1 H2) as Hv.
    apply (f_equal length) in Hv. by rewrite length_fmap in Hv.
  - specialize (IH Hp).
    destruct (negb (upperdelaunay f')); simpl.
    + destruct (vstore ti (id f') (Z.of_nat i)); [|done]. simpl.
      destruct (get_facet_vertices qh f' (uninitialised 3)); [|done]. simpl.
      destruct (load _ 0); [|done]. simpl.
      destruct (load _ 1); [|done]. simpl.
      destruct (load _ 2); [|done]. simpl.
      destruct (store buf ptr _); [|done]. simpl.
      destruct (store _ (ptr + 1) _); [|done]. simpl.
      destruct (store _ (ptr + 2) _); [|done]. simpl.
      apply IH.
    + destruct (vstore ti (id f') (-1)%Z); [|done]. simpl. apply IH.
Qed.

End Undefined.

Section Shape.
Context `{Qhull}.

(** X7: the translator relies on the engine's triangulation: when, after a
    successful engine run, the facet list holds a retained facet whose
    vertices are not exactly three (the local buffer of three indices is
    overrun or read where it was not written), the call has no defined
    outcome. *)
Theorem facet_without_three_vertices_is_undefined h npoints x y hide qh0 qh1
    diagnostics p f :
  reaches_engine h hide →
  tri_indices_allocate h = true → triangles_allocate h = true →
  neighbors_allocate h = true →
  engine_run npoints x y qh0 = Some (0%Z, qh1, diagnostics) →
  p ∈ facet_list (qh_triangulate qh1) →
  facet_heap (qh_triangulate qh1) !! p = Some f →
  upperdelaunay f = false → length (vertices f) ≠ 3 →
  (delaunay_impl h npoints x y hide qh0).1.1 = Undef.
Proof.
  intros [Hpoints Hnull] Hti Htri Hnb Hengine Hp Hf Hup Hlen.
  rewrite delaunay_impl_run, Hpoints, Hengine. simpl.
  unfold triangulate_outcome, guarded.
  rewrite ?bool_decide_false by (unfold qh_ERRnone; lia). simpl.
  assert (translate_result h (qh_triangulate qh1) = Undef) as ->.
  { unfold translate_result.
    destruct (count_triangles _ _ _) as [ntri|]; [|done].
    rewrite Hti, Htri, Hnb. simpl.
    by rewrite (emit_triangles_undefined _ _ p f). }
  destruct hide; [rewrite Hnull by done|]; done.
Qed.

(** The shape of the matrices the passes return. *)
Lemma translate_result_shape h qh tri nb :
  translate_result h qh = Ret (Some (tri, nb)) →
  rows tri = length (retained qh) ∧ rows nb = length (retained qh) ∧
  length (data tri) = length (retained qh) * 3 ∧
  length (data nb) = length (retained qh) * 3.
Proof.
  unfold translate_result.
  destruct (count_triangles _ _ _) as [ntri|] eqn:Hcount; [|done].
  apply count_triangles_spec in Hcount. simpl in Hcount.
  fold (retained qh) in Hcount. subst ntri.
  destruct (tri_indices_allocate h); simpl; [|done].
  destruct (triangles_allocate h); simpl; [|done].
  destruct (neighbors_allocate h); simpl; [|done].
  destruct (emit_triangles _ _ _ _ _ _) as [[ti tb]|] eqn:Ht; [|done].
  destruct (emit_neighbors _ _ _ _ _) as [nbuf|] eqn:Hn; [|done].
  destruct (tuple_allocates h); [|done].
  intros [= <- <-]. simpl.
  apply emit_triangles_buffer in Ht as (Hlt & _).
  apply emit_neighbors_buffer in Hn as (Hln & _).
  unfold uninitialised in Hlt, Hln. rewrite length_replicate in Hlt, Hln.
  done.
Qed.

(** X8: when the engine succeeds with a well-formed state none of whose
    facets is retained (every facet is an upper facet, or there is none),
    the call returns two matrices of no rows; it does not fail. *)
Theorem no_retained_facet_gives_empty_matrices h npoints x y hide qh0 qh1
    diagnostics :
  reaches_engine h hide → allocates_all h →
  engine_run npoints x y qh0 = Some (0%Z, qh1, diagnostics) →
  well_formed (qh_triangulate qh1) →
  retained (qh_triangulate qh1) = [] →
  (delaunay_impl h npoints x y hide qh0).1.1
  = Ret (Some ({| rows := 0; data := [] |}, {| rows := 0; data := [] |})).
Proof.
  intros [Hpoints Hnull] Halloc Hengine Hwf Hnone.
  destruct (translate_result_defined _ h Hwf Halloc) as (tri & nb & Htr).
  pose proof (translate_result_shape _ _ _ _ Htr) as (Hrt & Hrn & Hlt & Hln).
  rewrite Hnone in *. simpl in *.
  destruct tri as [rt dt], nb as [rn dn]. simpl in *. subst rt rn.
  apply nil_length_inv in Hlt, Hln. subst dt dn.
  rewrite delaunay_impl_run, Hpoints, Hengine. simpl.
  unfold triangulate_outcome, guarded.
  rewrite ?bool_decide_false by (unfold qh_ERRnone; lia). simpl.
  rewrite Htr. destruct hide; [rewrite Hnull by done|]; done.
Qed.

End Shape.

Lemma facet_without_three_vertices_is_undefined_witness :
  (delaunay_impl (H := quadrilateral_engine) good_host 4 square_x square_y
     true empty_qh).1.1 = Undef.
Proof.
  apply (facet_without_three_vertices_is_undefined
           (H := quadrilateral_engine) good_host 4 square_x square_y true
           empty_qh quadrilateral_qh "" 0
           {| id := 0; upperdelaunay := false; toporient := true;
              vertices := vertex_of <$> [3; 2; 1; 0];
              neighbors := [1; 1; 1; 1] |}).
  - split; reflexivity.
  - reflexivity.
  - reflexivity.
  - reflexivity.
  - vm_compute. reflexivity.
  - apply list_elem_of_here.
  - reflexivity.
  - reflexivity.
  - simpl. lia.
Defined.

Lemma upper_only_well_formed : well_formed upper_only_qh.
Proof.
  intros p Hp.
  repeat (apply elem_of_cons in Hp as [->|Hp]);
    [| |by apply elem_of_nil in Hp];
    eexists; (split; [reflexivity|]); (split; [simpl; lia|]);
    intros Hup; discriminate Hup.
Qed.

Lemma no_retained_facet_gives_empty_matrices_witness :
  (delaunay_impl (H := upper_only_engine) good_host 4 square_x square_y true
     empty_qh).1.1
  = Ret (Some ({| rows := 0; data := [] |}, {| rows := 0; data := [] |})).
Proof.
  apply (no_retained_facet_gives_empty_matrices (H := upper_only_engine)
           good_host 4 square_x square_y true empty_qh upper_only_qh "").
  - split; reflexivity.
  - repeat split.
  - vm_compute. reflexivity.
  - exact upper_only_well_formed.
  - reflexivity.
Defined.

(** ** The neighbours matrix as the adjacency of the retained facets *)

Lemma retained_not_upper qh facets k g :
  retained_of qh facets !! k = Some g → upperdelaunay g = false.
Proof.
  intros Hk. apply list_elem_of_lookup_2 in Hk.
  unfold retained_of in Hk. by apply list_elem_of_filter in Hk as [? _].
Qed.

Lemma retained_elem qh facets k g :
  retained_of qh facets !! k = Some g → g ∈ retained_of qh facets.
Proof. apply list_elem_of_lookup_2. Qed.

Lemma retained_lookup qh facets g :
  g ∈ facets_of qh facets → upperdelaunay g = false →
  ∃ k, retained_of qh facets !! k = Some g.
Proof.
  intros Hg Hup. apply list_elem_of_lookup_1. unfold retained_of.
  by apply list_elem_of_filter.
Qed.

Lemma neighbor_slot_onto toporient s :
  s < 3 → ∃ c, c < 3 ∧ neighbor_slot toporient c = s.
Proof.
  intros Hs. destruct toporient, s as [|[|[|s]]]; try lia;
    first [ by exists 0; split; [lia|] | by exists 1; split; [lia|]
          | by exists 2; split; [lia|] ].
Qed.

Lemma neighbor_slot_lt toporient c : c < 3 → neighbor_slot toporient c < 3.
Proof.
  intros Hc. destruct toporient, c as [|[|[|c]]]; simpl; lia.
Qed.

Section Adjacency.
Context `{Qhull}.

(** Where an entry of the neighbours matrix comes from. *)
Lemma neighbors_entry_source qh facets tri_indices buf buf' :
  emit_neighbors qh facets tri_indices buf 0 = Some buf' →
  ∀ i f, retained_of qh facets !! i = Some f →
    length (neighbors f) = 3 ∧
    ∀ c, c < 3 →
      ∃ p v, neighbors f !! neighbor_slot (toporient f) c = Some p ∧
             neighbour_index qh tri_indices p = Some v ∧
             load buf' (0 + 3 * i + c) = Some v.
Proof.
  intros Hnb i f Hf.
  apply emit_neighbors_buffer in Hnb as (_ & _ & Hnrow).
  destruct (Hnrow i f Hf) as (vals & Hvals & Hlen & Hcells).
  unfold native_neighbours in Hvals. apply mapM_Some in Hvals.
  pose proof (Forall2_length _ _ _ Hvals) as Hl.
  split; [lia|]. intros c Hc.
  assert (is_Some (vals !! neighbor_slot (toporient f) c)) as [v Hv].
  { apply lookup_lt_is_Some. rewrite Hlen. by apply neighbor_slot_lt. }
  destruct (Forall2_lookup_r _ _ _ _ _ Hvals Hv) as (p & Hp & Hpv).
  exists p, v. by rewrite Hcells, Hv.
Qed.

(** The adjacency that the two emission passes write. *)
Lemma adjacency_of_passes qh tri_indices tbuf nbuf n :
  emit_triangles qh (facet_list qh) 0 (replicate (facet_id qh) 0%Z)
    (uninitialised n) 0 = Some (tri_indices, tbuf) →
  emit_neighbors qh (facet_list qh) tri_indices (uninitialised n) 0
    = Some nbuf →
  distinct_ids qh → neighbours_listed qh →
  ∀ i j f g, retained qh !! i = Some f → retained qh !! j = Some g →
    (∃ c, c < 3 ∧ load nbuf (0 + 3 * i + c) = Some (Z.of_nat j)) ↔
    (∃ q, q ∈ neighbors f ∧ facet_heap qh !! q = Some g).
Proof.
  intros Htri Hnb Hnd Hlisted i j f g Hf Hg.
  destruct (emit_triangles_indices_nodup _ _ _ _ _ _ _ _ Hnd Htri)
    as (_ & Hkept & _).
  destruct (neighbors_entry_source _ _ _ _ _ Hnb i f Hf) as [Hlen Hsrc].
  split.
  - intros (c & Hc & Hentry).
    destruct (Hsrc c Hc) as (q & v & Hq & Hqv & Hload).
    rewrite Hload in Hentry. injection Hentry as ->.
    apply neighbour_index_Some in Hqv as (g' & Hg' & Hup & Hlow).
    exists q. split; [by eapply list_elem_of_lookup_2|].
    destruct (upperdelaunay g') eqn:Hupg; [specialize (Hup eq_refl); lia|].
    specialize (Hlow eq_refl).
    destruct (retained_lookup qh (facet_list qh) g') as [k Hk]; [|done|].
    { apply (Hlisted f q g'); [|by eapply list_elem_of_lookup_2|done].
      apply (retained_elem _ _ i). exact Hf. }
    rewrite (Hkept k g' Hk) in Hlow.
    assert (k = j) as -> by (injection Hlow; lia).
    unfold retained in Hg. congruence.
  - intros (q & Hq & Hqg).
    apply list_elem_of_lookup_1 in Hq as [s Hs].
    assert (s < 3) as Hs3 by (apply lookup_lt_Some in Hs; lia).
    destruct (neighbor_slot_onto (toporient f) s Hs3) as (c & Hc & Hcs).
    exists c. split; [done|].
    destruct (Hsrc c Hc) as (q' & v & Hq' & Hqv & Hload).
    rewrite Hcs, Hs in Hq'. injection Hq' as <-.
    apply neighbour_index_Some in Hqv as (g' & Hg' & _ & Hlow).
    rewrite Hqg in Hg'. injection Hg' as <-.
    specialize (Hlow (retained_not_upper _ _ _ _ Hg)).
    rewrite (Hkept j g Hg) in Hlow.
    rewrite Hload. f_equal. injection Hlow. lia.
Qed.

(** X9: when the facets of the list have distinct ids and every neighbour
    of a retained facet is in the list, the neighbours matrix is the
    adjacency of the retained facets: the index j stands in row i exactly
    when the j-th retained facet is a neighbour of the i-th. *)
Theorem neighbors_matrix_is_adjacency h npoints x y hide qh0 tri nb qh' t :
  delaunay_impl h npoints x y hide qh0 = (Ret (Some (tri, nb)), qh', t) →
  ∃ qh1 diagnostics,
    engine_run npoints x y qh0 = Some (0%Z, qh1, diagnostics) ∧
    let qh := qh_triangulate qh1 in
    distinct_ids qh → neighbours_listed qh →
    ∀ i j f g, retained qh !! i = Some f → retained qh !! j = Some g →
      (∃ c, c < 3 ∧ entry nb i c = Some (Z.of_nat j)) ↔
      (∃ q, q ∈ neighbors f ∧ facet_heap qh !! q = Some g).
Proof.
  intros Hrun.
  apply delaunay_impl_success in Hrun
    as (qh1 & diag & ti & Hengine & _ & _ & _ & Htri & Hnb).
  exists qh1, diag. split; [done|]. simpl.
  intros Hnd Hlisted i j f g Hf Hg.
  apply (adjacency_of_passes _ _ _ _ _ Htri Hnb Hnd Hlisted i j f g Hf Hg).
Qed.

(** X13: under the same two conditions, when the engine's neighbour
    relation on the retained facets is symmetric, so is the neighbours
    matrix: if triangle j stands in row i, triangle i stands in row j. *)
Theorem neighbors_matrix_is_symmetric h npoints x y hide qh0 tri nb qh' t :
  delaunay_impl h npoints x y hide qh0 = (Ret (Some (tri, nb)), qh', t) →
  ∃ qh1 diagnostics,
    engine_run npoints x y qh0 = Some (0%Z, qh1, diagnostics) ∧
    let qh := qh_triangulate qh1 in
    distinct_ids qh → neighbours_listed qh →
    (∀ f g, f ∈ retained qh → g ∈ retained qh →
       (∃ q, q ∈ neighbors f ∧ facet_heap qh !! q = Some g) →
       (∃ q, q ∈ neighbors g ∧ facet_heap qh !! q = Some f)) →
    ∀ i j c, i < rows nb → j < rows nb → c < 3 →
      entry nb i c = Some (Z.of_nat j) →
      ∃ c', c' < 3 ∧ entry nb j c' = Some (Z.of_nat i).
Proof.
  intros Hrun.
  apply delaunay_impl_success in Hrun
    as (qh1 & diag & ti & Hengine & _ & _ & Hrows & Htri & Hnb).
  exists qh1, diag. split; [done|]. simpl.
  set (qh := qh_triangulate qh1) in *.
  intros Hnd Hlisted Hsym i j c Hi Hj Hc Hentry.
  destruct (lookup_lt_is_Some_2 (retained qh) i) as [f Hf]; [lia|].
  destruct (lookup_lt_is_Some_2 (retained qh) j) as [g Hg]; [lia|].
  apply (adjacency_of_passes _ _ _ _ _ Htri Hnb Hnd Hlisted j i g f Hg Hf).
  apply Hsym;
    [apply (retained_elem _ _ i); exact Hf
    |apply (retained_elem _ _ j); exact Hg|].
  apply (adjacency_of_passes _ _ _ _ _ Htri Hnb Hnd Hlisted i j f g Hf Hg).
  exists c. by rewrite <- entry_load.
Qed.

(** X14: the map from facet ids to triangle indices starts out as zeros:
    a neighbour that is not an upper facet and whose id is the id of no
    facet of the list is written as triangle 0. *)
Theorem unlisted_neighbour_reads_as_triangle_0 h npoints x y hide qh0 tri nb
    qh' t :
  delaunay_impl h npoints x y hide qh0 = (Ret (Some (tri, nb)), qh', t) →
  ∃ qh1 diagnostics,
    engine_run npoints x y qh0 = Some (0%Z, qh1, diagnostics) ∧
    let qh := qh_triangulate qh1 in
    distinct_ids qh →
    ∀ i f c q g, retained qh !! i = Some f → c < 3 →
      neighbors f !! neighbor_slot (toporient f) c = Some q →
      facet_heap qh !! q = Some g →
      upperdelaunay g = false →
      id g ∉ id <$> facets_of qh (facet_list qh) →
      entry nb i c = Some 0%Z.
Proof.
  intros Hrun.
  apply delaunay_impl_success in Hrun
    as (qh1 & diag & ti & Hengine & _ & _ & _ & Htri & Hnb).
  exists qh1, diag. split; [done|]. simpl.
  set (qh := qh_triangulate qh1) in *.
  intros Hnd i f c q g Hf Hc Hq Hg Hup Hfresh.
  destruct (emit_triangles_indices_nodup _ _ _ _ _ _ _ _ Hnd Htri)
    as (Hout & _ & _).
  destruct (neighbors_entry_source _ _ _ _ _ Hnb i f Hf) as [_ Hsrc].
  destruct (Hsrc c Hc) as (q' & v & Hq' & Hqv & Hload).
  rewrite Hq in Hq'. injection Hq' as <-.
  apply neighbour_index_Some in Hqv as (g' & Hg' & _ & Hlow).
  rewrite Hg in Hg'. injection Hg' as <-.
  specialize (Hlow Hup). rewrite (Hout _ Hfresh) in Hlow.
  apply lookup_replicate_zero in Hlow as ->.
  by rewrite entry_load, Hload.
Qed.

(** X10: under the same two conditions an entry of the neighbours matrix
    is the sentinel -1 exactly when the engine's neighbour in its slot is
    an upper facet. *)
Theorem sentinel_marks_upper_neighbour h npoints x y hide qh0 tri nb qh' t :
  delaunay_impl h npoints x y hide qh0 = (Ret (Some (tri, nb)), qh', t) →
  ∃ qh1 diagnostics,
    engine_run npoints x y qh0 = Some (0%Z, qh1, diagnostics) ∧
    let qh := qh_triangulate qh1 in
    distinct_ids qh → neighbours_listed qh →
    ∀ i f c, retained qh !! i = Some f → c < 3 →
      ∃ q g,
        neighbors f !! neighbor_slot (toporient f) c = Some q ∧
        facet_heap qh !! q = Some g ∧
        (entry nb i c = Some (-1)%Z ↔ upperdelaunay g = true).
Proof.
  intros Hrun.
  apply delaunay_impl_success in Hrun
    as (qh1 & diag & ti & Hengine & _ & _ & _ & Htri & Hnb).
  exists qh1, diag. split; [done|]. simpl.
  set (qh := qh_triangulate qh1) in *.
  intros Hnd Hlisted i f c Hf Hc.
  destruct (emit_triangles_indices_nodup _ _ _ _ _ _ _ _ Hnd Htri)
    as (_ & Hkept & _).
  destruct (neighbors_entry_source _ _ _ _ _ Hnb i f Hf) as [Hlen Hsrc].
  destruct (Hsrc c Hc) as (q & v & Hq & Hqv & Hload).
  apply neighbour_index_Some in Hqv as (g & Hg & Hup & Hlow).
  exists q, g. split; [done|]. split; [done|].
  rewrite entry_load, Hload. split.
  - intros [= ->]. destruct (upperdelaunay g) eqn:Hupg; [done|].
    specialize (Hlow eq_refl).
    destruct (retained_lookup qh (facet_list qh) g) as [k Hk]; [|done|].
    { apply (Hlisted f q g); [|by eapply list_elem_of_lookup_2|done].
      apply (retained_elem _ _ i). exact Hf. }
    rewrite (Hkept k g Hk) in Hlow. injection Hlow. lia.
  - intros Hupg. by rewrite (Hup Hupg).
Qed.

(** X11: when the engine's ids of the vertices of the retained facets are
    indices of input points, so is every entry of the triangles matrix. *)
Theorem triangles_entries_are_point_indices h npoints x y hide qh0 tri nb
    qh' t :
  delaunay_impl h npoints x y hide qh0 = (Ret (Some (tri, nb)), qh', t) →
  ∃ qh1 diagnostics,
    engine_run npoints x y qh0 = Some (0%Z, qh1, diagnostics) ∧
    let qh := qh_triangulate qh1 in
    (∀ f v, f ∈ retained qh → v ∈ native_vertices qh f →
            (0 ≤ v < Z.of_nat npoints)%Z) →
    ∀ i c, i < rows tri → c < 3 →
      ∃ v, entry tri i c = Some v ∧ (0 ≤ v < Z.of_nat npoints)%Z.
Proof.
  intros Hrun.
  apply delaunay_impl_success in Hrun
    as (qh1 & diag & ti & Hengine & _ & Hrows & _ & Htri & _).
  exists qh1, diag. split; [done|]. simpl.
  set (qh := qh_triangulate qh1) in *.
  intros Hids i c Hi Hc.
  destruct (lookup_lt_is_Some_2 (retained qh) i) as [f Hf]; [lia|].
  apply emit_triangles_buffer in Htri as (_ & _ & Hrow).
  destruct (Hrow i f Hf) as [Hlen Hcells].
  rewrite entry_load, Hcells by done.
  assert (is_Some (native_vertices qh f !! vertex_slot (toporient f) c))
    as [v Hv].
  { apply lookup_lt_is_Some. rewrite Hlen.
    destruct c as [|[|[|c]]]; simpl; try lia; destruct (toporient f); lia. }
  exists v. split; [done|].
  apply (Hids f); [|by eapply list_elem_of_lookup_2].
  apply (retained_elem _ _ i). exact Hf.
Qed.

End Adjacency.

(** The square meets the two conditions. *)
Lemma square_distinct_ids : distinct_ids square_qh.
Proof. unfold distinct_ids. by apply (bool_decide_unpack _). Qed.

Lemma square_neighbours_listed : neighbours_listed square_qh.
Proof.
  intros f q g Hf Hq Hg.
  vm_compute in Hf. vm_compute (facets_of _ _).
  repeat (apply elem_of_cons in Hf as [->|Hf]);
    [| |by apply elem_of_nil in Hf];
    simpl in Hq;
    repeat (apply elem_of_cons in Hq as [->|Hq]);
    try (by apply elem_of_nil in Hq);
    injection Hg as <-;
    repeat first [apply list_elem_of_here | apply list_elem_of_further].
Qed.

Lemma neighbors_matrix_is_adjacency_witness :
  ∃ qh1 diagnostics,
    engine_run (H := square_engine) 4 square_x square_y empty_qh
      = Some (0%Z, qh1, diagnostics) ∧
    let qh := qh_triangulate (Qhull := square_engine) qh1 in
    distinct_ids qh → neighbours_listed qh →
    ∀ i j f g, retained qh !! i = Some f → retained qh !! j = Some g →
      (∃ c, c < 3 ∧ entry square_neighbors i c = Some (Z.of_nat j)) ↔
      (∃ q, q ∈ neighbors f ∧ facet_heap qh !! q = Some g).
Proof.
  apply (neighbors_matrix_is_adjacency (H := square_engine) good_host 4
           square_x square_y true empty_qh square_triangles square_neighbors
           empty_qh square_trace).
  vm_compute. reflexivity.
Defined.

Lemma sentinel_marks_upper_neighbour_witness :
  ∃ qh1 diagnostics,
    engine_run (H := square_engine) 4 square_x square_y empty_qh
      = Some (0%Z, qh1, diagnostics) ∧
    let qh := qh_triangulate (Qhull := square_engine) qh1 in
    distinct_ids qh → neighbours_listed qh →
    ∀ i f c, retained qh !! i = Some f → c < 3 →
      ∃ q g,
        neighbors f !! neighbor_slot (toporient f) c = Some q ∧
        facet_heap qh !! q = Some g ∧
        (entry square_neighbors i c = Some (-1)%Z ↔ upperdelaunay g = true).
Proof.
  apply (sentinel_marks_upper_neighbour (H := square_engine) good_host 4
           square_x square_y true empty_qh square_triangles square_neighbors
           empty_qh square_trace).
  vm_compute. reflexivity.
Defined.

Lemma triangles_entries_are_point_indices_witness :
  ∃ qh1 diagnostics,
    engine_run (H := square_engine) 4 square_x square_y empty_qh
      = Some (0%Z, qh1, diagnostics) ∧
    let qh := qh_triangulate (Qhull := square_engine) qh1 in
    (∀ f v, f ∈ retained qh →
            v ∈ native_vertices (H := square_engine) qh f →
            (0 ≤ v < Z.of_nat 4)%Z) →
    ∀ i c, i < rows square_triangles → c < 3 →
      ∃ v, entry square_triangles i c = Some v ∧ (0 ≤ v < Z.of_nat 4)%Z.
Proof.
  apply (triangles_entries_are_point_indices (H := square_engine) good_host 4
           square_x square_y true empty_qh square_triangles square_neighbors
           empty_qh square_trace).
  vm_compute. reflexivity.
Defined.

(** * The protocol of the entry point *)

Section Protocol.
Context `{Qhull}.





End Protocol.

Lemma neighbors_matrix_is_symmetric_witness :
  ∃ qh1 diagnostics,
    engine_run (H := square_engine) 4 square_x square_y empty_qh
      = Some (0%Z, qh1, diagnostics) ∧
    let qh := qh_triangulate (Qhull := square_engine) qh1 in
    distinct_ids qh → neighbours_listed qh →
    (∀ f g, f ∈ retained qh → g ∈ retained qh →
       (∃ q, q ∈ neighbors f ∧ facet_heap qh !! q = Some g) →
       (∃ q, q ∈ neighbors g ∧ facet_heap qh !! q = Some f)) →
    ∀ i j c, i < rows square_neighbors → j < rows square_neighbors → c < 3 →
      entry square_neighbors i c = Some (Z.of_nat j) →
      ∃ c', c' < 3 ∧ entry square_neighbors j c' = Some (Z.of_nat i).
Proof.
  apply (neighbors_matrix_is_symmetric (H := square_engine) good_host 4
           square_x square_y true empty_qh square_triangles square_neighbors
           empty_qh square_trace).
  vm_compute. reflexivity.
Defined.

(** The call on the engine state with the unlisted neighbour: the one
    triangle is given itself as a neighbour. *)
Lemma stray_run :
  delaunay_impl (H := stray_engine) good_host 4 square_x square_y true empty_qh
  = (Ret (Some (stray_triangles, stray_neighbors)), empty_qh, square_trace).
Proof. vm_compute. reflexivity. Qed.

Lemma unlisted_neighbour_reads_as_triangle_0_witness :
  ∃ qh1 diagnostics,
    engine_run (H := stray_engine) 4 square_x square_y empty_qh
      = Some (0%Z, qh1, diagnostics) ∧
    let qh := qh_triangulate (Qhull := stray_engine) qh1 in
    distinct_ids qh →
    ∀ i f c q g, retained qh !! i = Some f → c < 3 →
      neighbors f !! neighbor_slot (toporient f) c = Some q →
      facet_heap qh !! q = Some g →
      upperdelaunay g = false →
      id g ∉ id <$> facets_of qh (facet_list qh) →
      entry stray_neighbors i c = Some 0%Z.
Proof.
  apply (unlisted_neighbour_reads_as_triangle_0 (H := stray_engine) good_host
           4 square_x square_y true empty_qh stray_triangles stray_neighbors
           empty_qh square_trace).
  vm_compute. reflexivity.
Defined.
